(** * A model of [src/blockchain.js]: the star-registry private blockchain

    The class [Blockchain] keeps an array [chain] of blocks and a counter
    [height]; every method returns a promise.  The development embeds

    - the JavaScript primitives the class relies on (decimal rendering of
      numbers, [slice], [split], [parseInt]) in module [JS];
    - the blocks (module [BlockClass]) and the promise machinery: the
      promises handed to callers, the arrays and variables that closures
      share, and the queue of promise jobs, each job being the piece of
      a method that runs after an [await] or as a [then] or [catch]
      callback;
    - each method of the class as a function on the state of the program
      (section [Blockchain]): the part of the method that runs during the
      call, which queues the jobs for the rest.

    Numbers are JavaScript doubles in the source; every number the class
    manipulates is an integer (clock readings, heights, timestamps), and
    they are represented by [Z], which is exact below 2^53.  [NaN] is the
    only non-integer value that the code can produce and is kept apart.
    Strings are sequences of code units below 256. *)

From Stdlib Require Import ZArith String Ascii List Lia Bool Sorted.
From stdpp Require Import base decidable option list strings.
Import ListNotations.

Local Open Scope string_scope.
Local Open Scope list_scope.
Local Open Scope Z_scope.

(** ** JavaScript primitives *)

Module JS.

(** A JavaScript number as far as this program is concerned:
    [None] is [NaN]. *)
Definition Num := option Z.
Definition NaN : Num := None.

(** [a - b] *)
Definition sub (a b : Num) : Num :=
  match a, b with
  | Some x, Some y => Some (x - y)
  | _, _ => NaN
  end.

(** [a > b]; any comparison with [NaN] is false. *)
Definition gt (a b : Num) : bool :=
  match a, b with
  | Some x, Some y => y <? x
  | _, _ => false
  end.

(** *** [Number.prototype.toString] on integers *)

Definition digit (d : Z) : ascii := ascii_of_nat (48 + Z.to_nat d).

(** Decimal digits of a non-negative integer, most significant first. *)
Fixpoint digits (fuel : nat) (n : Z) : string :=
  match fuel with
  | O => ""
  | S f =>
      if n <? 10 then String (digit n) ""
      else digits f (n / 10) +:+ String (digit (n mod 10)) ""
  end.

(** Every division by ten removes at least one binary digit. *)
Definition fuel (n : Z) : nat := S (Z.to_nat (Z.log2 n)).

Definition toString (n : Z) : string :=
  if n <? 0 then String "-" (digits (fuel (- n)) (- n))
  else digits (fuel n) n.

(** *** [String.prototype.slice(0, -3)]

    A negative end counts from the end of the string and is clamped at
    the start: strings of three characters or fewer give [""]. *)
Definition slice_0_m3 (s : string) : string :=
  substring 0 (String.length s - 3)%nat s.

(** *** [String.prototype.split] with a one-character separator *)
Fixpoint split (sep : ascii) (s : string) : list string :=
  match s with
  | EmptyString => [""]
  | String c s' =>
      if Ascii.eqb c sep then "" :: split sep s'
      else match split sep s' with
           | h :: t => String c h :: t
           | [] => [String c ""]
           end
  end.

(** *** [parseInt] with no radix argument *)

(** White space among the code units below 256: TAB, LF, VT, FF, CR,
    SP and NBSP. *)
Definition isWhiteSpace (c : ascii) : bool :=
  let n := nat_of_ascii c in
  ((9 <=? n) && (n <=? 13) || (n =? 32) || (n =? 160))%nat.

Fixpoint trimStart (s : string) : string :=
  match s with
  | String c s' => if isWhiteSpace c then trimStart s' else s
  | EmptyString => s
  end.

(** Value of [c] as a digit in base [radix], if it is one. *)
Definition digitVal (radix : Z) (c : ascii) : option Z :=
  let n := Z.of_nat (nat_of_ascii c) in
  let v := if (48 <=? n) && (n <=? 57) then Some (n - 48)
           else if (97 <=? n) && (n <=? 122) then Some (n - 87)
           else if (65 <=? n) && (n <=? 90) then Some (n - 55)
           else None in
  match v with
  | Some d => if d <? radix then Some d else None
  | None => None
  end.

(** Longest prefix of digits, read left to right; [NaN] when the
    prefix is empty. *)
Fixpoint parseDigits (radix : Z) (acc : Num) (s : string) : Num :=
  match s with
  | String c s' =>
      match digitVal radix c with
      | Some d => parseDigits radix (Some (radix * default 0 acc + d)) s'
      | None => acc
      end
  | EmptyString => acc
  end.

Definition parseInt (s : string) : Num :=
  let s1 := trimStart s in
  let '(sign, s2) :=
    match s1 with
    | String c r =>
        if Ascii.eqb c "-" then (-1, r)
        else if Ascii.eqb c "+" then (1, r)
        else (1, s1)
    | EmptyString => (1, s1)
    end in
  let '(radix, s3) :=
    match s2 with
    | String c (String x r) =>
        if Ascii.eqb c "0" && (Ascii.eqb x "x" || Ascii.eqb x "X")
        then (16, r) else (10, s2)
    | _ => (10, s2)
    end in
  option_map (Z.mul sign) (parseDigits radix NaN s3).

(** [parseInt(undefined)] reads the string ["undefined"], which has no
    digit. *)
Definition parseIntOpt (s : option string) : Num :=
  match s with
  | Some s => parseInt s
  | None => parseInt "undefined"
  end.

End JS.

(** ** Blocks

    [block.js] is not part of the sources at hand; the class [Block] is
    known through the way [blockchain.js] uses it: the fields it assigns
    ([previousBlockHash], [height], [time], [hash], [owner]), the
    constructor argument and the methods [validate] and [getBData]. *)

Module BlockClass.

(** The two payloads the class ever passes to the constructor:
    [{data: 'Genesis Block'}] and [{'star': star}]. *)
Inductive Data :=
| GenesisData
| StarData (star : string).

Record Block := mkBlock {
  hash : option string;               (* [null] until the block is sealed *)
  height : Z;
  body : Data;
  time : string;
  previousBlockHash : option string;  (* [null] for the first block *)
  owner : option string               (* [None]: the property is absent *)
}.

Definition set_hash (h : option string) (b : Block) : Block :=
  mkBlock h (height b) (body b) (time b) (previousBlockHash b) (owner b).
Definition set_height (n : Z) (b : Block) : Block :=
  mkBlock (hash b) n (body b) (time b) (previousBlockHash b) (owner b).
Definition set_time (t : string) (b : Block) : Block :=
  mkBlock (hash b) (height b) (body b) t (previousBlockHash b) (owner b).
Definition set_previousBlockHash (h : option string) (b : Block) : Block :=
  mkBlock (hash b) (height b) (body b) (time b) h (owner b).
Definition set_owner (o : option string) (b : Block) : Block :=
  mkBlock (hash b) (height b) (body b) (time b) (previousBlockHash b) o.

(** Modelled from the spec: the constructor of [Block] in [block.js]
    (absent).  The spec builds "an unsealed Block with payload": no hash
    yet, no owner, and height, time and link still to be assigned by the
    chain. *)
Definition new (data : Data) : Block :=
  mkBlock None 0 data "" None None.

(** The decoded payload handed out by [getBData], with the [owner]
    property that [getStarsByWalletAddress] adds to it. *)
Record Star := mkStar {
  star_data : Data;
  star_owner : option string
}.

(** Modelled from the spec: [getBData] of [block.js] (absent) resolves
    with the decoded payload of the block. *)
Definition getBData (b : Block) : Star := mkStar (body b) None.

End BlockClass.

Import BlockClass.

(** ** Collaborators

    What [blockchain.js] requires from other modules: the digest of
    [crypto-js/sha256] rendered with [toString()], [JSON.stringify] applied
    to a block, and [bitcoinMessage.verify].  [verify] stands for the
    answer of [bitcoinMessage.verify] where it gives one: [true] when it
    accepts the signature.  On an address or a signature that it cannot
    read it throws instead; the statements that depend on the answer
    say which answer they are about. *)

Class Collaborators := {
  SHA256 : string -> string;
  stringify : Block -> string;
  verify : string -> string -> string -> bool
}.

(** ** Promises, microtasks and the state of the program *)

Inductive Value :=
| VUndefined
| VBlock (b : Block)
| VErrors (ref : nat)          (* the array [errorLog], by reference *)
| VString (s : string)
| VNumber (n : Z)
| VStars (l : list Star).

(** An [Error] object is represented by its message. *)
Inductive Promise :=
| Pending
| Fulfilled (v : Value)
| Rejected (message : string).

(** Who awaits the promise returned by [_addBlock]. *)
Inductive Awaiter :=
| NoAwaiter
| AwaitInit                    (* [initializeChain], line 39 *)
| AwaitSubmit (p : nat).       (* [submitStar], lines 149-150 *)

(** The pieces of code that run as promise jobs.  Each constructor keeps
    the variables its piece of code has captured.  Jobs run in the order
    in which they are queued.  A reaction added to a settled promise is
    queued at once, and so is the rest of a function that awaits a settled
    promise or a value that is not a promise (ECMAScript 2019); a
    reaction added to a pending promise is queued when the promise
    settles. *)
Inductive Task :=
| TValidate (errorLog : nat) (block : Block) (isBlockValid : bool)
    (* lines 217-227: the [forEach] callback after its [await] *)
| TErrors (chainErrorFound : nat) (errors : nat)
    (* line 76 *)
| TSeal (chainErrorFound : nat) (block : Block) (digest : string)
    (p : nat) (aw : Awaiter)
    (* lines 85-87: the executor after its [await] *)
| TCatch (chainErrorFound : nat) (r : Block + string) (p : nat) (aw : Awaiter)
    (* line 89 *)
| TThen (chainErrorFound : nat) (block : option Block) (p : nat) (aw : Awaiter)
    (* lines 90-96 *)
| TResume (aw : Awaiter) (v : Value)
    (* the caller of [_addBlock] after its [await] *)
| TStars (p : nat) (address : string) (stars : list Star).
    (* lines 197-202 *)

Record State := mkState {
  chain : list (option Block);  (* [this.chain]; [None] is [undefined] *)
  height : Z;                   (* [this.height] *)
  clock : Z;                    (* what [new Date().getTime()] reads
                                   during the current call *)
  arrays : list (list string);  (* the [errorLog] arrays allocated so far *)
  cells : list bool;            (* the [chainErrorFound] variables *)
  promises : list Promise;      (* the promises handed to callers *)
  console : list string;        (* what [console.log] has printed *)
  microtasks : list Task        (* the promise job queue *)
}.

Definition set_chain (c : list (option Block)) (s : State) : State :=
  mkState c (height s) (clock s) (arrays s) (cells s) (promises s) (console s) (microtasks s).
Definition set_this_height (h : Z) (s : State) : State :=
  mkState (chain s) h (clock s) (arrays s) (cells s) (promises s) (console s) (microtasks s).
Definition set_clock (t : Z) (s : State) : State :=
  mkState (chain s) (height s) t (arrays s) (cells s) (promises s) (console s) (microtasks s).
Definition set_arrays (a : list (list string)) (s : State) : State :=
  mkState (chain s) (height s) (clock s) a (cells s) (promises s) (console s) (microtasks s).
Definition set_cells (c : list bool) (s : State) : State :=
  mkState (chain s) (height s) (clock s) (arrays s) c (promises s) (console s) (microtasks s).
Definition set_promises (p : list Promise) (s : State) : State :=
  mkState (chain s) (height s) (clock s) (arrays s) (cells s) p (console s) (microtasks s).
Definition set_console (c : list string) (s : State) : State :=
  mkState (chain s) (height s) (clock s) (arrays s) (cells s) (promises s) c (microtasks s).
Definition set_microtasks (q : list Task) (s : State) : State :=
  mkState (chain s) (height s) (clock s) (arrays s) (cells s) (promises s) (console s) q.

(** A state with nothing in flight. *)
Definition quiet (c : list (option Block)) (h now : Z) : State :=
  mkState c h now [] [] [] [] [].

Definition enqueue (t : Task) (s : State) : State :=
  set_microtasks (microtasks s ++ [t]) s.

Definition enqueue_all (ts : list Task) (s : State) : State :=
  set_microtasks (microtasks s ++ ts) s.

(** [new Promise(...)] whose executor leaves it in state [o]. *)
Definition new_promise (o : Promise) (s : State) : nat * State :=
  (length (promises s), set_promises (promises s ++ [o]) s).

(** [resolve] and [reject]: only the first call on a promise counts. *)
Definition settle (p : nat) (o : Promise) (s : State) : State :=
  match promises s !! p with
  | Some Pending => set_promises (<[p := o]> (promises s)) s
  | _ => s
  end.

(** [errorLog.push(message)] *)
Definition push_error (errorLog : nat) (message : string) (s : State) : State :=
  set_arrays (alter (fun l => l ++ [message]) errorLog (arrays s)) s.

(** [this.chain[i]] when it is a block: [None] stands for [undefined],
    be it a hole or an index out of range. *)
Definition chain_at (c : list (option Block)) (i : Z) : option Block :=
  if i <? 0 then None else mjoin (c !! Z.to_nat i).

Definition value_of (b : option Block) : Value :=
  match b with
  | Some b => VBlock b
  | None => VUndefined
  end.

Definition notify (aw : Awaiter) (v : Value) (s : State) : State :=
  match aw with
  | NoAwaiter => s
  | _ => enqueue (TResume aw v) s
  end.

(** ** The class [Blockchain] *)

Section Blockchain.

Context `{Collaborators}.

(** Modelled from the spec: the Hasher behind [validate] of [block.js]
    (absent).  The digest is taken over the serialization of every field
    except [hash], that is, of the block with [hash] back at the value
    it had before sealing. *)
Definition recomputeHash (b : Block) : string :=
  SHA256 (stringify (set_hash None b)).

(** Modelled from the spec: [validate] of [block.js] (absent) recomputes
    the hash from the stored fields and compares it to the stored hash.
    The Hasher is a pure function, so the promise that [validate]
    returns is settled by the time the caller awaits it. *)
Definition validate (b : Block) : bool :=
  bool_decide (hash b = Some (recomputeHash b)).

(** Lines 55-57. *)
Definition getUTCTimestamp (now : Z) : string :=
  JS.slice_0_m3 (JS.toString now).

(** Lines 46-50. *)
Definition getChainHeight (s : State) : nat * State :=
  new_promise (Fulfilled (VNumber (height s))) s.

(** The two messages of lines 220 and 225. *)
Definition notValidMessage (h : Z) : string :=
  "Block " +:+ JS.toString h +:+ " is not valid.".
Definition noLinkMessage (h previousBlockHeight : Z) : string :=
  "Block " +:+ JS.toString h +:+ " does not link to previous Block "
    +:+ JS.toString previousBlockHeight +:+ ".".

(** Lines 217-227, the part of the [forEach] callback that follows
    [await block.validate()].  The calls of [resolve] in it come after
    the one of line 229 and have no effect.  Reading [.hash] of
    [this.chain[previousBlockHeight]] throws when there is no block at
    that index: the callback stops there and the log keeps what it
    has. *)
Definition validateBlock (errorLog : nat) (block : Block)
    (isBlockValid : bool) (s : State) : State :=
  let previousBlockHeight := BlockClass.height block - 1 in
  let s1 := if isBlockValid then s
            else push_error errorLog (notValidMessage (BlockClass.height block)) s in
  if 0 <? BlockClass.height block then
    match chain_at (chain s1) previousBlockHeight with
    | Some previous =>
        if bool_decide (previousBlockHash block <> hash previous)
        then push_error errorLog
               (noLinkMessage (BlockClass.height block) previousBlockHeight) s1
        else s1
    | None => s1
    end
  else s1.

(** Lines 212-231.  [forEach] calls the callback on every entry; each
    call runs [block.validate()] and suspends at its [await] (on
    [undefined] the call throws inside the callback, whose promise
    nobody reads).  Line 229 then resolves the promise with the array
    [errorLog] itself, which the suspended callbacks fill later. *)
Definition validateChain (s : State) : nat * State :=
  let errorLog := length (arrays s) in
  let s1 := set_arrays (arrays s ++ [[]]) s in
  let callbacks :=
    flat_map (fun entry =>
                match entry with
                | Some block => [TValidate errorLog block (validate block)]
                | None => []
                end) (chain s1) in
  new_promise (Fulfilled (VErrors errorLog)) (enqueue_all callbacks s1).

(** [promise.then(errors => ...)] of lines 75-77 on the promise of
    [validateChain], which is fulfilled already: the job is queued at
    once. *)
Definition then_errors (promise chainErrorFound : nat) (s : State) : State :=
  match promises s !! promise with
  | Some (Fulfilled (VErrors errors)) => enqueue (TErrors chainErrorFound errors) s
  | _ => s
  end.

(** Lines 80-84: the fields the chain assigns to the candidate.  The
    source writes them into the object it is given; the record that
    comes out stands for that object, which [initializeChain] and
    [submitStar] make anew for each call. *)
Definition prepare (block : Block) (chain : list (option Block)) (now : Z) : Block :=
  let height := Z.of_nat (length chain) in
  let block :=
    set_previousBlockHash
      (match chain_at chain (height - 1) with
       | Some previous => hash previous
       | None => None
       end) block in
  let block := set_height height block in
  set_time (getUTCTimestamp now) block.

(** Lines 71-97, up to the [await] of line 85.  The argument of
    [await] is computed before the function suspends. *)
Definition _addBlock (block : Block) (aw : Awaiter) (s : State) : nat * State :=
  let chainErrorFound := length (cells s) in
  let s := set_cells (cells s ++ [false]) s in
  let '(errors, s) := validateChain s in
  let s := then_errors errors chainErrorFound s in
  let block := prepare block (chain s) (clock s) in
  let digest := SHA256 (stringify block) in
  let '(p, s) := new_promise Pending s in
  (p, enqueue (TSeal chainErrorFound block digest p aw) s).

(** Line 86: a string is truthy when it is not empty. *)
Definition isBlockValid (block : Block) (chain : list (option Block)) : bool :=
  let maxHashLength := 64%nat in
  negb (String.eqb (default EmptyString (hash block)) EmptyString)
  && negb (String.eqb (time block) EmptyString)
  && (BlockClass.height block =? Z.of_nat (length chain))
  && (String.length (default EmptyString (hash block)) =? maxHashLength)%nat.

(** Lines 85-87, after the [await]. *)
Definition seal (chainErrorFound : nat) (block : Block) (digest : string)
    (p : nat) (aw : Awaiter) (s : State) : State :=
  let block := set_hash (Some digest) block in
  enqueue (TCatch chainErrorFound
             (if isBlockValid block (chain s) then inl block
              else inr "Block is invalid and cannot be added") p aw) s.

(** Line 89: a fulfilled promise passes through; a rejection is printed
    and replaced by [undefined]. *)
Definition catch_error (chainErrorFound : nat) (r : Block + string)
    (p : nat) (aw : Awaiter) (s : State) : State :=
  match r with
  | inl block => enqueue (TThen chainErrorFound (Some block) p aw) s
  | inr error =>
      enqueue (TThen chainErrorFound None p aw)
        (set_console (console s ++ ["Error " +:+ error]) s)
  end.

(** Lines 90-96. *)
Definition then_push (chainErrorFound : nat) (block : option Block)
    (p : nat) (aw : Awaiter) (s : State) : State :=
  if negb (default false (cells s !! chainErrorFound)) then
    let s := set_chain (chain s ++ [block]) s in
    let s := set_this_height (Z.of_nat (length (chain s)) - 1) s in
    notify aw (value_of block) (settle p (Fulfilled (value_of block)) s)
  else
    notify aw VUndefined (settle p (Fulfilled VUndefined) s).

(** Line 76. *)
Definition set_chainErrorFound (chainErrorFound errors : nat) (s : State) : State :=
  let length_errors := length (default [] (arrays s !! errors)) in
  set_cells (<[chainErrorFound := negb (length_errors =? 0)%nat]> (cells s)) s.

(** What follows [await this._addBlock(block)] in the caller. *)
Definition resume (aw : Awaiter) (v : Value) (s : State) : State :=
  match aw with
  | AwaitSubmit p => settle p (Fulfilled v) s     (* line 150 *)
  | AwaitInit => s                                (* line 40 *)
  | NoAwaiter => s
  end.

(** Lines 197-202. *)
Definition annotate (address : string) (star : Star) : Star :=
  mkStar (star_data star) (Some address).

Definition resolve_stars (p : nat) (address : string) (stars : list Star)
    (s : State) : State :=
  settle p (Fulfilled (VStars (map (annotate address) stars))) s.

(** Lines 36-41. *)
Definition initializeChain (s : State) : State :=
  if height s =? -1 then
    let block := BlockClass.new GenesisData in
    snd (_addBlock block AwaitInit s)
  else s.

(** Lines 25-29, with the clock reading [now]. *)
Definition new_Blockchain (now : Z) : State :=
  initializeChain (quiet [] (-1) now).

(** Lines 107-113. *)
Definition challengeMessage (address : string) (now : Z) : string :=
  let timestamp := getUTCTimestamp now in
  address +:+ ":" +:+ timestamp +:+ ":starRegistry".

Definition requestMessageOwnershipVerification (address : string)
    (s : State) : nat * State :=
  new_promise (Fulfilled (VString (challengeMessage address (clock s)))) s.

(** Lines 134-140: the condition under which line 140 rejects. *)
Definition requestedTime (message : string) : JS.Num :=
  JS.parseIntOpt (JS.split ":" message !! 1%nat).
Definition currentTime (now : Z) : JS.Num :=
  JS.parseInt (getUTCTimestamp now).
Definition timeHasElapsed (message : string) (now : Z) : bool :=
  let elapsedTime := JS.sub (currentTime now) (requestedTime message) in
  let targetTime := 5 * 60 in
  JS.gt elapsedTime (Some targetTime).

(** Lines 132-152.  [reject] settles the promise and returns: the
    statements after it run all the same. *)
Definition submitStar (address message signature star : string)
    (s : State) : nat * State :=
  let '(p, s) := new_promise Pending s in
  let s := if timeHasElapsed message (clock s)
           then settle p (Rejected "Time has elapsed") s else s in
  let s := if negb (verify message address signature)
           then settle p (Rejected "Message is invalid") s else s in
  let block := BlockClass.new (StarData star) in
  let block := set_owner (Some address) block in
  (p, snd (_addBlock block (AwaitSubmit p) s)).

(** Lines 188-204.  The [filter] callback reads [.owner] of every
    entry, which throws on [undefined]; an exception in the executor
    rejects the promise.  [Promise.all] over the promises of [getBData]
    and its [then] are folded into one job. *)
Definition getStarsByWalletAddress (address : string) (s : State) : nat * State :=
  let '(p, s) := new_promise Pending s in
  match mapM id (chain s) with
  | Some all =>
      let blocks := filter (fun block => owner block = Some address) all in
      let promises := map getBData blocks in
      (p, enqueue (TStars p address promises) s)
  | None => (p, settle p (Rejected "TypeError") s)
  end.

(** ** The job queue *)

Definition run_task (t : Task) (s : State) : State :=
  match t with
  | TValidate errorLog block isBlockValid => validateBlock errorLog block isBlockValid s
  | TErrors chainErrorFound errors => set_chainErrorFound chainErrorFound errors s
  | TSeal chainErrorFound block digest p aw => seal chainErrorFound block digest p aw s
  | TCatch chainErrorFound r p aw => catch_error chainErrorFound r p aw s
  | TThen chainErrorFound block p aw => then_push chainErrorFound block p aw s
  | TResume aw v => resume aw v s
  | TStars p address stars => resolve_stars p address stars s
  end.

(** One job: the oldest one. *)
Definition step (s : State) : State :=
  match microtasks s with
  | [] => s
  | t :: rest => run_task t (set_microtasks rest s)
  end.

Fixpoint run (n : nat) (s : State) : State :=
  match n with
  | O => s
  | S n => run n (step s)
  end.

(** The number of jobs a job stands for: itself and the ones it will
    queue. *)
Definition weight (t : Task) : nat :=
  match t with
  | TSeal _ _ _ _ _ => 4
  | TCatch _ _ _ _ => 3
  | TThen _ _ _ _ => 2
  | _ => 1
  end.

Definition pending_jobs (s : State) : nat :=
  list_sum (map weight (microtasks s)).

(** Run the queue until it is empty, as the engine does before it
    takes the next event. *)
Definition drain (s : State) : State := run (pending_jobs s) s.

(** The value a promise is fulfilled with, arrays read through. *)
Definition errors_of (s : State) (p : nat) : option (list string) :=
  match promises s !! p with
  | Some (Fulfilled (VErrors ref)) => arrays s !! ref
  | _ => None
  end.

End Blockchain.

(** Strings of decimal digits. *)
Definition decimal (c : ascii) : Prop := exists d, JS.digitVal 10 c = Some d.

Fixpoint all_decimal (s : string) : Prop :=
  match s with
  | EmptyString => True
  | String c s' => decimal c /\ all_decimal s'
  end.

(** Strings without the separator of the challenge message. *)
Fixpoint no_colon (s : string) : Prop :=
  match s with
  | EmptyString => True
  | String c s' => Ascii.eqb c ":" = false /\ no_colon s'
  end.

(** ** The two look-ups

    Their executors run to the end during the call and touch nothing
    but their own promise: each is given by the state in which its
    promise is when the call returns. *)

Inductive Settled (A : Type) :=
| Resolved (a : A)
| RejectedWith (message : string).

Arguments Resolved {A} a.
Arguments RejectedWith {A} message.

(** [this.chain.find((block) => hash === block.hash)] of line 163:
    [find] stops at the first entry that passes the test and gives
    [undefined] when there is none; the test throws on an entry that is
    [undefined]. *)
Fixpoint find_hash (hash : string) (chain : list (option Block))
    : Settled (option Block) :=
  match chain with
  | [] => Resolved None
  | None :: _ => RejectedWith "TypeError"
  | Some block :: rest =>
      if bool_decide (BlockClass.hash block = Some hash)
      then Resolved (Some block)
      else find_hash hash rest
  end.

(** Lines 160-167.  An exception in the executor rejects the promise;
    the [resolve] after a [reject] has no effect. *)
Definition getBlockByHash (hash : string) (chain : list (option Block))
    : Settled Block :=
  match find_hash hash chain with
  | Resolved (Some isBlockFound) => Resolved isBlockFound
  | Resolved None =>
      RejectedWith ("Block not found with specified hash: " +:+ hash)
  | RejectedWith error => RejectedWith error
  end.

(** Lines 174-180.  [filter] runs its test on every entry, and the test
    throws on [undefined]; [None] in the result is [null]. *)
Definition getBlockByHeight (height : Z) (chain : list (option Block))
    : Settled (option Block) :=
  match mapM id chain with
  | Some all =>
      Resolved (head (filter (fun block => BlockClass.height block = height) all))
  | None => RejectedWith "TypeError"
  end.

(** ** What the spec says, next to the code *)

(** The two kinds of entries of a validation report. *)
Inductive ValidationError :=
| TamperedBlock (h : Z)
| BrokenLink (h previous : Z).

Definition error_height (e : ValidationError) : Z :=
  match e with
  | TamperedBlock h => h
  | BrokenLink h _ => h
  end.

Definition is_TamperedBlock (e : ValidationError) : bool :=
  match e with
  | TamperedBlock _ => true
  | BrokenLink _ _ => false
  end.

Definition is_BrokenLink (e : ValidationError) : bool :=
  match e with
  | TamperedBlock _ => false
  | BrokenLink _ _ => true
  end.

(** How many elements of a list pass a test. *)
Definition count {A} (f : A -> bool) (l : list A) : nat :=
  length (List.filter f l).

Section Specification.

Context `{Collaborators}.

(** The string the code logs for an entry. *)
Definition render (e : ValidationError) : string :=
  match e with
  | TamperedBlock h => notValidMessage h
  | BrokenLink h previous => noLinkMessage h previous
  end.

(** The blocks of a chain, holes left out. *)
Definition blocks (c : list (option Block)) : list Block := omap id c.

(** A block whose recomputed hash is not its stored hash. *)
Definition tampered (b : Block) : Prop :=
  hash b <> Some (recomputeHash b).

(** A block of height > 0 whose [previousBlockHash] differs from the
    stored hash of the block at [height - 1]. *)
Definition broken_link (c : list (option Block)) (b : Block) : Prop :=
  0 < BlockClass.height b /\
  exists previous,
    chain_at c (BlockClass.height b - 1) = Some previous /\
    previousBlockHash b <> hash previous.

(** The two tests, as booleans. *)
Definition is_tampered (b : Block) : bool :=
  negb (bool_decide (hash b = Some (recomputeHash b))).

Definition is_broken_link (c : list (option Block)) (b : Block) : bool :=
  match (if 0 <? BlockClass.height b
         then chain_at c (BlockClass.height b - 1) else None) with
  | Some previous => negb (bool_decide (previousBlockHash b = hash previous))
  | None => false
  end.

(** The entries a block contributes to the report, following the
    spec: at most one of each kind, the tampering first. *)
Definition violations (c : list (option Block)) (b : Block) : list ValidationError :=
  (if is_tampered b then [TamperedBlock (BlockClass.height b)] else [])
  ++
  (if is_broken_link c b
   then [BrokenLink (BlockClass.height b) (BlockClass.height b - 1)] else []).

(** The complete report: every block, in the order of the chain. *)
Definition audit (c : list (option Block)) : list ValidationError :=
  flat_map (violations c) (blocks c).

(** The jobs that [validateChain] queues for a list of blocks. *)
Definition validate_jobs (errorLog : nat) (bs : list Block) : list Task :=
  map (fun b => TValidate errorLog b (validate b)) bs.

(** The candidate once sealed by lines 80-85. *)
Definition sealed (block : Block) (chain : list (option Block)) (now : Z) : Block :=
  let block := prepare block chain now in
  set_hash (Some (SHA256 (stringify block))) block.

(** Where [validateChain] leaves a state with an empty queue once its
    jobs have run. *)
Definition validateChain_final (s : State) : State :=
  mkState (chain s) (height s) (clock s)
    (arrays s ++ [map render (audit (chain s))])
    (cells s)
    (promises s ++ [Fulfilled (VErrors (length (arrays s)))])
    (console s) [].

(** What line 76 leaves in [chainErrorFound] for a chain. *)
Definition corrupt (c : list (option Block)) : bool :=
  negb (length (map render (audit c)) =? 0)%nat.

(** What line 92 pushes when it runs: the block, or [undefined] when
    line 87 has rejected. *)
Definition pushed (block : Block) (s : State) : option Block :=
  let block := sealed block (chain s) (clock s) in
  if isBlockValid block (chain s) then Some block else None.

(** Where [_addBlock] leaves a state with an empty queue once its jobs
    have run. *)
Definition addBlock_final (block : Block) (aw : Awaiter) (s : State) : State :=
  let v := if corrupt (chain s) then VUndefined else value_of (pushed block s) in
  resume aw v
    (mkState
       (if corrupt (chain s) then chain s else chain s ++ [pushed block s])
       (if corrupt (chain s) then height s
        else Z.of_nat (length (chain s ++ [pushed block s])) - 1)
       (clock s)
       (arrays s ++ [map render (audit (chain s))])
       (cells s ++ [corrupt (chain s)])
       (promises s ++ [Fulfilled (VErrors (length (arrays s))); Fulfilled v])
       (match pushed block s with
        | Some _ => console s
        | None => console s ++ ["Error " +:+ "Block is invalid and cannot be added"]
        end)
       []).

(** The rejection that [submitStar] issues, if any: only the first
    [reject] counts. *)
Definition verdict (address message signature : string) (now : Z) : option string :=
  if timeHasElapsed message now then Some "Time has elapsed"
  else if negb (verify message address signature) then Some "Message is invalid"
  else None.

(** The block that [submitStar] hands to [_addBlock]. *)
Definition candidate (address star : string) : Block :=
  set_owner (Some address) (BlockClass.new (StarData star)).

(** The state in which [submitStar] calls [_addBlock]. *)
Definition submitStar_entry (address message signature : string) (s : State) : State :=
  set_promises
    (promises s ++ [match verdict address message signature (clock s) with
                    | Some error => Rejected error
                    | None => Pending
                    end]) s.

(** The invariants of a chain: it starts with a genesis block, every
    entry is a block whose height is its index, and every block after
    the first links to the stored hash of the one before it. *)
Definition well_linked (c : list (option Block)) : Prop :=
  (exists genesis,
      c !! 0%nat = Some (Some genesis) /\
      BlockClass.height genesis = 0 /\
      previousBlockHash genesis = None /\
      owner genesis = None) /\
  (forall (i : nat) entry,
      c !! i = Some entry ->
      exists b, entry = Some b /\ BlockClass.height b = Z.of_nat i) /\
  (forall (i : nat) b,
      c !! S i = Some (Some b) ->
      exists a, c !! i = Some (Some a) /\ previousBlockHash b = hash a).

(** An append is successful when the job of lines 90-96 pushes the
    sealed block. *)
Definition appended (s s' : State) : Prop :=
  exists b, chain s' = chain s ++ [Some b].

(** The states after initialization and after any sequence of
    successful appends, each one run to completion before the next
    call; the clock may read anything at each call. *)
Inductive reachable : State -> Prop :=
| reach_new now :
    let s' := drain (new_Blockchain now) in
    appended (quiet [] (-1) now) s' ->
    reachable s'
| reach_addBlock s now block :
    reachable s ->
    let s' := drain (snd (_addBlock block NoAwaiter (set_clock now s))) in
    appended s s' ->
    reachable s'
| reach_submitStar s now address message signature star :
    reachable s ->
    let s' := drain (snd (submitStar address message signature star
                            (set_clock now s))) in
    appended s s' ->
    reachable s'.

(** A chain that is well linked and whose blocks all carry the hash
    of their fields. *)
Definition sound (c : list (option Block)) : Prop :=
  well_linked c /\ forall b, In (Some b) c -> validate b = true.

(** A submission: the clock at the call and the four arguments. *)
Record Submission := mkSubmission {
  sub_clock : Z;
  sub_address : string;
  sub_message : string;
  sub_signature : string;
  sub_star : string
}.

(** Submissions made one after the other, each one run to completion
    before the next: [submitted s l s'] when the submissions [l] take the
    state [s] to the state [s']. *)
Inductive submitted : State -> list Submission -> State -> Prop :=
| submitted_nil s : submitted s [] s
| submitted_cons s x l s1 s' :
    s1 = drain (snd (submitStar (sub_address x) (sub_message x)
                       (sub_signature x) (sub_star x)
                       (set_clock (sub_clock x) s))) ->
    submitted s1 l s' ->
    submitted s (x :: l) s'.

(** Every state the program can be observed in: between any two jobs,
    after any call of a method, at any time. *)
Inductive live : State -> Prop :=
| live_new now : live (new_Blockchain now)
| live_step s : live s -> live (step s)
| live_clock s now : live s -> live (set_clock now s)
| live_initializeChain s : live s -> live (initializeChain s)
| live_addBlock s block aw : live s -> live (snd (_addBlock block aw s))
| live_submitStar s address message signature star :
    live s -> live (snd (submitStar address message signature star s))
| live_validateChain s : live s -> live (snd (validateChain s))
| live_getChainHeight s : live s -> live (snd (getChainHeight s))
| live_request s address :
    live s -> live (snd (requestMessageOwnershipVerification address s))
| live_getStars s address :
    live s -> live (snd (getStarsByWalletAddress address s)).

(** The states of a program that calls the public methods only, with
    signatures that the verifier accepts.  Every candidate that reaches
    [_addBlock] is then an object that [initializeChain] or [submitStar]
    has made for this one call: no entry of the chain is reached through
    a candidate. *)
Inductive served : State -> Prop :=
| served_new now : served (new_Blockchain now)
| served_step s : served s -> served (step s)
| served_clock s now : served s -> served (set_clock now s)
| served_initializeChain s : served s -> served (initializeChain s)
| served_submitStar s address message signature star :
    served s ->
    verify message address signature = true ->
    served (snd (submitStar address message signature star s))
| served_validateChain s : served s -> served (snd (validateChain s))
| served_getChainHeight s : served s -> served (snd (getChainHeight s))
| served_request s address :
    served s -> served (snd (requestMessageOwnershipVerification address s))
| served_getStars s address :
    served s -> served (snd (getStarsByWalletAddress address s)).

End Specification.

(** ** Stand-ins for the collaborators

    Concrete functions with the interface of the collaborators, used to
    run the class on examples: a serialization in the manner of
    [JSON.stringify] (no character of the examples needs escaping), a
    checksum rendered as 64 hexadecimal digits, and a verifier that
    accepts one signature per message and address. *)

Module Demo.

(** The double quote character. *)
Definition dq : string := String (ascii_of_nat 34) EmptyString.

Definition quote (s : string) : string := dq +:+ s +:+ dq.

Definition quote_opt (s : option string) : string :=
  match s with
  | Some s => quote s
  | None => "null"
  end.

Definition field (name value : string) : string :=
  quote name +:+ ":" +:+ value.

Definition json_data (d : Data) : string :=
  match d with
  | GenesisData => "{" +:+ field "data" (quote "Genesis Block") +:+ "}"
  | StarData star => "{" +:+ field "star" (quote star) +:+ "}"
  end.

Definition json (b : Block) : string :=
  "{" +:+ field "hash" (quote_opt (hash b))
    +:+ "," +:+ field "height" (JS.toString (BlockClass.height b))
    +:+ "," +:+ field "body" (json_data (body b))
    +:+ "," +:+ field "time" (quote (time b))
    +:+ "," +:+ field "previousBlockHash" (quote_opt (previousBlockHash b))
    +:+ match owner b with
        | Some o => "," +:+ field "owner" (quote o)
        | None => EmptyString
        end
    +:+ "}".

Fixpoint checksum (acc : Z) (s : string) : Z :=
  match s with
  | EmptyString => acc
  | String c s' => checksum ((acc * 131 + Z.of_nat (nat_of_ascii c)) mod 2 ^ 256) s'
  end.

Definition hexdigit (d : Z) : ascii :=
  if d <? 10 then ascii_of_nat (48 + Z.to_nat d) else ascii_of_nat (87 + Z.to_nat d).

Fixpoint hex (n : nat) (v : Z) (acc : string) : string :=
  match n with
  | O => acc
  | S n => hex n (v / 16) (String (hexdigit (v mod 16)) acc)
  end.

Definition digest (s : string) : string := hex 64 (checksum 7 s) EmptyString.

Definition sign (message address : string) : string :=
  "sig(" +:+ address +:+ "," +:+ message +:+ ")".

Definition check (message address signature : string) : bool :=
  String.eqb signature (sign message address).

#[global] Instance collaborators : Collaborators :=
  {| SHA256 := digest; stringify := json; verify := check |}.

End Demo.

(** ** A run of the class, with the stand-ins

    The chain is created at [t0]; the wallet [abc] requests a challenge
    at the same time and signs it. *)

Module Scenario.

Import Demo.

Definition t0 : Z := 1700000000123.

Definition created : State := drain (new_Blockchain t0).

Definition message : string := challengeMessage "abc" t0.

Definition signature : string := sign message "abc".

(** A submission [seconds] after the challenge. *)
Definition submit_after (seconds : Z) (sig star : string) (s : State) : nat * State :=
  submitStar "abc" message sig star (set_clock (t0 + 1000 * seconds) s).

(** A chain of two blocks: the genesis block and a star of [abc]. *)
Definition registered : State :=
  drain (snd (submit_after 100 signature "Sirius" created)).

(** The same chain after somebody has edited the star of block 1. *)
Definition edit (star : string) (entry : option Block) : option Block :=
  match entry with
  | Some b => Some (mkBlock (hash b) (BlockClass.height b) (StarData star)
                      (time b) (previousBlockHash b) (owner b))
  | None => None
  end.

Definition tampered_chain : list (option Block) :=
  alter (edit "Vega") 1%nat (chain registered).

(** Two candidates handed to [_addBlock] in the same turn, on the chain
    that holds the genesis block. *)
Definition overlapped : State :=
  drain (snd (_addBlock (candidate "xyz" "Vega") NoAwaiter
                (snd (_addBlock (candidate "abc" "Sirius") NoAwaiter created)))).

(** The chain of two blocks with both payloads edited and the order of
    the blocks reversed. *)
Definition descending_chain : list (option Block) :=
  rev (map (edit "Vega") (chain registered)).

End Scenario.

(** * Properties *)

(** ** Examples of the primitives *)

Example toString_ex : JS.toString 1700000000123 = "1700000000123".
Proof. reflexivity. Qed.
Example toString_neg : JS.toString (-42) = "-42".
Proof. reflexivity. Qed.
Example toString_0 : JS.toString 0 = "0".
Proof. reflexivity. Qed.
Example slice_ex : JS.slice_0_m3 "1700000000123" = "1700000000".
Proof. reflexivity. Qed.
Example slice_short : JS.slice_0_m3 "999" = "".
Proof. reflexivity. Qed.
Example split_ex : JS.split ":" "abc:1700000000:starRegistry" = ["abc"; "1700000000"; "starRegistry"].
Proof. reflexivity. Qed.
Example split_empty : JS.split ":" "" = [""].
Proof. reflexivity. Qed.
Example parseInt_ex : JS.parseInt "1700000000" = Some 1700000000.
Proof. reflexivity. Qed.
Example parseInt_junk : JS.parseInt " -12px" = Some (-12).
Proof. reflexivity. Qed.
Example parseInt_hex : JS.parseInt "0x1f" = Some 31.
Proof. reflexivity. Qed.
Example parseInt_nan : JS.parseInt "" = None /\ JS.parseInt "abc" = None /\ JS.parseIntOpt None = None.
Proof. repeat split; reflexivity. Qed.


(** ** Decimal strings *)

Section Decimal.

Lemma log2_div10 n : 10 <= n -> Z.log2 (n / 10) < Z.log2 n.
Proof.
  intros Hn.
  assert (H1 : 0 < n / 10) by (apply Z.div_str_pos; lia).
  apply Z.log2_lt_pow2; auto.
  destruct (Z.log2_spec n) as [Hlo Hhi]; [lia|].
  rewrite Z.pow_succ_r in Hhi by apply Z.log2_nonneg.
  apply Z.div_lt_upper_bound; lia.
Qed.

(** Fuel beyond the binary length of the number changes nothing. *)
Lemma digits_fuel f1 : forall f2 n,
  0 <= n ->
  (Z.to_nat (Z.log2 n) < f1)%nat -> (Z.to_nat (Z.log2 n) < f2)%nat ->
  JS.digits f1 n = JS.digits f2 n.
Proof.
  induction f1 as [|f1 IH]; intros f2 n Hn H1 H2; [lia|].
  destruct f2 as [|f2]; [lia|]. simpl.
  destruct (n <? 10) eqn:E; auto.
  apply Z.ltb_ge in E. pose proof (log2_div10 n E).
  pose proof (Z.log2_nonneg (n / 10)).
  f_equal. apply IH; try lia. apply Z.div_pos; lia.
Qed.

Lemma toString_small n : 0 <= n < 10 -> JS.toString n = String (JS.digit n) EmptyString.
Proof.
  intros Hn. unfold JS.toString, JS.fuel.
  replace (n <? 0) with false by (symmetry; apply Z.ltb_ge; lia).
  simpl. replace (n <? 10) with true by (symmetry; apply Z.ltb_lt; lia).
  reflexivity.
Qed.

(** The last digit of a number of two digits or more. *)
Lemma toString_step n :
  10 <= n ->
  JS.toString n = JS.toString (n / 10) +:+ String (JS.digit (n mod 10)) EmptyString.
Proof.
  intros Hn. unfold JS.toString, JS.fuel.
  assert (H0 : 0 <= n / 10) by (apply Z.div_pos; lia).
  replace (n <? 0) with false by (symmetry; apply Z.ltb_ge; lia).
  replace (n / 10 <? 0) with false by (symmetry; apply Z.ltb_ge; lia).
  remember (S (Z.to_nat (Z.log2 (n / 10)))) as f2 eqn:Ef2.
  simpl. replace (n <? 10) with false by (symmetry; apply Z.ltb_ge; lia).
  f_equal. pose proof (log2_div10 n Hn). pose proof (Z.log2_nonneg (n / 10)).
  apply digits_fuel; auto; lia.
Qed.

Lemma append_cons c s t : String c s +:+ t = String c (s +:+ t).
Proof. reflexivity. Qed.

Lemma append_empty t : EmptyString +:+ t = t.
Proof. reflexivity. Qed.

Lemma length_append s t :
  String.length (s +:+ t) = (String.length s + String.length t)%nat.
Proof. induction s as [|c s IH]; simpl; auto. Qed.

Lemma substring_prefix s t : substring 0 (String.length s) (s +:+ t) = s.
Proof.
  induction s as [|c s IH]; simpl.
  - destruct t; reflexivity.
  - rewrite IH. reflexivity.
Qed.

Lemma append_assoc (s t u : string) : (s +:+ t) +:+ u = s +:+ (t +:+ u).
Proof.
  induction s as [|c s IH]; [reflexivity|].
  change (String c ((s +:+ t) +:+ u) = String c (s +:+ t +:+ u)). congruence.
Qed.

(** [slice(0, -3)] removes three characters at the end. *)
Lemma slice_three s a b c :
  JS.slice_0_m3 (s +:+ String a (String b (String c EmptyString))) = s.
Proof.
  unfold JS.slice_0_m3. rewrite length_append. simpl.
  replace (String.length s + 3 - 3)%nat with (String.length s) by lia.
  apply substring_prefix.
Qed.

(** On a reading of four digits or more, the last three characters
    are the milliseconds. *)
Lemma slice_toString ms :
  1000 <= ms -> JS.slice_0_m3 (JS.toString ms) = JS.toString (ms / 1000).
Proof.
  intros Hms.
  assert (H1 : 100 <= ms / 10) by (apply Z.div_le_lower_bound; lia).
  assert (H2 : 10 <= ms / 10 / 10) by (apply Z.div_le_lower_bound; lia).
  rewrite (toString_step ms) by lia.
  rewrite (toString_step (ms / 10)) by lia.
  rewrite (toString_step (ms / 10 / 10)) by lia.
  rewrite !Z.div_div by lia. rewrite !append_assoc. simpl.
  change (10 * 10 * 10) with 1000. apply slice_three.
Qed.

(** *** Reading a decimal string back *)

Lemma digitVal_digit d : 0 <= d < 10 -> JS.digitVal 10 (JS.digit d) = Some d.
Proof.
  intros Hd.
  assert (Hc : d = 0 \/ d = 1 \/ d = 2 \/ d = 3 \/ d = 4 \/ d = 5 \/ d = 6
               \/ d = 7 \/ d = 8 \/ d = 9) by lia.
  repeat (destruct Hc as [-> | Hc]; [reflexivity|]). subst; reflexivity.
Qed.

Lemma all_decimal_app s t : all_decimal s -> all_decimal t -> all_decimal (s +:+ t).
Proof.
  induction s as [|c s IH]; rewrite ?append_cons, ?append_empty;
    cbn [all_decimal]; intuition.
Qed.

Lemma parseDigits_snoc s : forall acc c d,
  all_decimal s -> JS.digitVal 10 c = Some d ->
  JS.parseDigits 10 acc (s +:+ String c EmptyString)
  = Some (10 * default 0 (JS.parseDigits 10 acc s) + d).
Proof.
  induction s as [|c0 s IH]; intros acc c d Hs Hc;
    rewrite ?append_cons, ?append_empty; cbn [JS.parseDigits].
  - rewrite Hc. reflexivity.
  - destruct Hs as [[d0 Hd0] Hs]. rewrite Hd0. apply IH; auto.
Qed.

Lemma parseDigits_digits f : forall n,
  0 <= n -> (Z.to_nat (Z.log2 n) < f)%nat ->
  all_decimal (JS.digits f n) /\ JS.parseDigits 10 JS.NaN (JS.digits f n) = Some n.
Proof.
  induction f as [|f IH]; intros n Hn Hf; [lia|]. cbn [JS.digits].
  destruct (n <? 10) eqn:E.
  - apply Z.ltb_lt in E. cbn [all_decimal JS.parseDigits].
    rewrite digitVal_digit by lia.
    split; [split; [eexists; apply digitVal_digit; lia|exact I]|].
    unfold JS.NaN. cbn [default]. f_equal; lia.
  - apply Z.ltb_ge in E. pose proof (log2_div10 n E) as Hlog.
    pose proof (Z.log2_nonneg (n / 10)) as Hnn.
    assert (Hq : 0 <= n / 10) by (apply Z.div_pos; lia).
    destruct (IH (n / 10)) as [Hall Hparse]; [lia|lia|].
    pose proof (Z.mod_pos_bound n 10 ltac:(lia)) as Hm.
    split.
    + apply all_decimal_app; auto. cbn [all_decimal].
      split; [eexists; apply digitVal_digit; lia|exact I].
    + rewrite (parseDigits_snoc _ _ _ (n mod 10)); auto using digitVal_digit.
      rewrite Hparse. cbn [default]. f_equal.
      symmetry. apply Z.div_mod. lia.
Qed.

Lemma decimal_plain c :
  decimal c ->
  JS.isWhiteSpace c = false /\ Ascii.eqb c "-" = false /\ Ascii.eqb c "+" = false
  /\ Ascii.eqb c "x" = false /\ Ascii.eqb c "X" = false.
Proof.
  intros [d Hd]. revert Hd.
  destruct c as [[] [] [] [] [] [] [] []]; vm_compute; intros Hd;
    try discriminate; repeat split; reflexivity.
Qed.

Lemma parseInt_decimal s :
  all_decimal s -> JS.parseInt s = JS.parseDigits 10 JS.NaN s.
Proof.
  destruct s as [|c s]; [reflexivity|]. intros [Hc Hs].
  destruct (decimal_plain c Hc) as (Hw & Hm & Hp & _).
  unfold JS.parseInt. cbn [JS.trimStart]. rewrite Hw, Hm, Hp.
  assert (E2 : (match String c s with
                | String c (String x r) =>
                    if Ascii.eqb c "0" && (Ascii.eqb x "x" || Ascii.eqb x "X")
                    then (16, r) else (10, String c s)
                | _ => (10, String c s)
                end) = (10, String c s)).
  { destruct s as [|c2 s2]; [reflexivity|].
    destruct Hs as [Hc2 _].
    destruct (decimal_plain c2 Hc2) as (_ & _ & _ & Hx & HX).
    rewrite Hx, HX, andb_false_r. reflexivity. }
  rewrite E2.
  destruct (JS.parseDigits 10 JS.NaN (String c s)) as [v|]; simpl; auto.
  f_equal. destruct v; reflexivity.
Qed.

(** [parseInt] reads back what [toString] writes. *)
Lemma parseInt_toString n : 0 <= n -> JS.parseInt (JS.toString n) = Some n.
Proof.
  intros Hn. unfold JS.toString.
  replace (n <? 0) with false by (symmetry; apply Z.ltb_ge; lia).
  destruct (parseDigits_digits (JS.fuel n) n) as [Hall Hparse];
    [lia | unfold JS.fuel; lia |].
  rewrite parseInt_decimal; auto.
Qed.

End Decimal.


(** ** The job queue *)

Section Machine.

Context `{Collaborators}.

Lemma run_plus n m s : run (n + m) s = run m (run n s).
Proof. revert s; induction n as [|n IH]; intros s; simpl; auto. Qed.

Lemma step_idle s : microtasks s = [] -> step s = s.
Proof. unfold step; intros ->; reflexivity. Qed.

Lemma run_idle n s : microtasks s = [] -> run n s = s.
Proof.
  intros Hq; induction n as [|n IH]; simpl; auto.
  rewrite step_idle; auto.
Qed.

Lemma microtasks_settle p o s : microtasks (settle p o s) = microtasks s.
Proof. unfold settle; repeat case_match; reflexivity. Qed.

Lemma microtasks_notify aw v s :
  microtasks (notify aw v s) =
  microtasks s ++ match aw with NoAwaiter => [] | _ => [TResume aw v] end.
Proof. destruct aw; simpl; rewrite ?app_nil_r; reflexivity. Qed.

(** A job queues strictly less work than it stands for. *)
Lemma run_task_queue t s :
  exists more,
    microtasks (run_task t s) = microtasks s ++ more /\
    (list_sum (map weight more) < weight t)%nat.
Proof.
  destruct t; simpl.
  - exists []; split; [|simpl; lia].
    unfold validateBlock; repeat case_match; simpl; rewrite ?app_nil_r; reflexivity.
  - exists []; split; [|simpl; lia]. simpl; rewrite app_nil_r; reflexivity.
  - eexists; split; [reflexivity|]. simpl; lia.
  - unfold catch_error; destruct r; eexists; (split; [reflexivity|]); simpl; lia.
  - unfold then_push; case_match; rewrite microtasks_notify, microtasks_settle;
      simpl; eexists; (split; [reflexivity|]); destruct aw; simpl; lia.
  - exists []; split; [|simpl; lia].
    unfold resume; destruct aw; rewrite ?microtasks_settle, app_nil_r; reflexivity.
  - exists []; split; [|simpl; lia].
    unfold resolve_stars; rewrite microtasks_settle, app_nil_r; reflexivity.
Qed.

Lemma pending_jobs_step s :
  microtasks s <> [] -> (pending_jobs (step s) < pending_jobs s)%nat.
Proof.
  unfold step, pending_jobs. destruct (microtasks s) as [|t rest] eqn:E; [congruence|].
  intros _. destruct (run_task_queue t (set_microtasks rest s)) as (more & -> & Hlt).
  simpl. rewrite map_app, list_sum_app. lia.
Qed.

Lemma pending_jobs_idle s : pending_jobs s = 0%nat -> microtasks s = [].
Proof.
  unfold pending_jobs. destruct (microtasks s) as [|t rest]; auto.
  simpl. destruct t; simpl; lia.
Qed.

Lemma run_stable n m s :
  (pending_jobs s <= n)%nat -> (pending_jobs s <= m)%nat -> run n s = run m s.
Proof.
  revert m s; induction n as [|n IH]; intros m s Hn Hm.
  - rewrite !run_idle; auto; apply pending_jobs_idle; lia.
  - destruct (microtasks s) as [|t rest] eqn:E.
    + rewrite !run_idle; auto.
    + assert (Hlt : (pending_jobs (step s) < pending_jobs s)%nat)
        by (apply pending_jobs_step; congruence).
      destruct m as [|m]; [lia|]. simpl. apply IH; lia.
Qed.

Lemma run_enough n s :
  (pending_jobs s <= n)%nat -> run n s = drain s.
Proof. intros Hn. apply run_stable; auto. Qed.

(** Running a job first does not change where the queue ends. *)
Lemma drain_step s : drain (step s) = drain s.
Proof.
  destruct (microtasks s) as [|t rest] eqn:E.
  - rewrite step_idle; auto.
  - assert (Hlt : (pending_jobs (step s) < pending_jobs s)%nat)
      by (apply pending_jobs_step; congruence).
    unfold drain at 2. destruct (pending_jobs s) as [|k] eqn:Ek; [lia|].
    simpl. apply eq_sym, run_enough; lia.
Qed.

Lemma drain_run n s : drain (run n s) = drain s.
Proof.
  revert s; induction n as [|n IH]; intros s; simpl; auto.
  rewrite IH. apply drain_step.
Qed.

Lemma drain_idle s : microtasks s = [] -> drain s = s.
Proof. intros Hq. unfold drain. apply run_idle, Hq. Qed.

(** The queue always empties: every call runs to completion. *)
Lemma drain_quiet s : microtasks (drain s) = [].
Proof.
  unfold drain. remember (pending_jobs s) as n eqn:En.
  assert (Hle : (pending_jobs s <= n)%nat) by lia. clear En.
  revert s Hle; induction n as [|n IH]; intros s Hle; simpl.
  - apply pending_jobs_idle; lia.
  - destruct (microtasks s) as [|t rest] eqn:E.
    + rewrite step_idle by auto. apply IH.
      unfold pending_jobs; rewrite E; simpl; lia.
    + apply IH. pose proof (pending_jobs_step s). rewrite E in *.
      assert ((pending_jobs (step s) < pending_jobs s)%nat) by (apply H0; congruence).
      lia.
Qed.

End Machine.

(** ** Running [validateChain] and [_addBlock] to completion *)

Section BigStep.

Context `{Collaborators}.

Lemma alter_push_nil (a : list (list string)) L :
  alter (fun l => l ++ []) L a = a.
Proof. apply list_alter_id. intros x. apply app_nil_r. Qed.

Lemma alter_push_push (a : list (list string)) L x y :
  alter (fun l => l ++ y) L (alter (fun l => l ++ x) L a)
  = alter (fun l => l ++ (x ++ y)) L a.
Proof.
  rewrite list_alter_alter_eq. apply list_alter_ext; auto.
  intros l _. simpl. rewrite app_assoc. reflexivity.
Qed.

Lemma callbacks_blocks L c :
  flat_map (fun entry : option Block =>
              match entry with
              | Some block => [TValidate L block (validate block)]
              | None => []
              end) c
  = validate_jobs L (blocks c).
Proof.
  induction c as [|[b|] c IH]; simpl; auto.
  unfold blocks, validate_jobs in *. simpl. rewrite IH. reflexivity.
Qed.

(** The job of one block logs the entries the spec lists for it. *)
Lemma validateBlock_report L b s :
  validateBlock L b (validate b) s
  = set_arrays (alter (fun l => l ++ map render (violations (chain s) b)) L
                  (arrays s)) s.
Proof.
  unfold validateBlock, violations, is_tampered, is_broken_link, validate,
    push_error.
  destruct s as [c h now arrs cls ps con q]; simpl.
  destruct (bool_decide (hash b = Some (recomputeHash b))); simpl;
    destruct (0 <? BlockClass.height b); simpl;
    try destruct (chain_at c (BlockClass.height b - 1)) as [previous|]; simpl;
    rewrite ?bool_decide_not;
    try destruct (bool_decide (previousBlockHash b = hash previous)); simpl;
    unfold set_arrays; simpl;
    rewrite ?alter_push_nil, ?alter_push_push; reflexivity.
Qed.

Lemma run_validate_jobs bs : forall s L rest,
  microtasks s = validate_jobs L bs ++ rest ->
  run (length bs) s
  = set_microtasks rest
      (set_arrays
         (alter (fun l => l ++ map render (flat_map (violations (chain s)) bs)) L
            (arrays s)) s).
Proof.
  induction bs as [|b bs IH]; intros s L rest Hq.
  - destruct s; simpl in *. subst. unfold set_arrays, set_microtasks; simpl.
    rewrite alter_push_nil. reflexivity.
  - simpl. unfold step at 1. rewrite Hq. simpl.
    rewrite validateBlock_report.
    rewrite (IH _ L rest) by reflexivity.
    destruct s; unfold set_arrays, set_microtasks; simpl.
    rewrite alter_push_push, map_app. reflexivity.
Qed.

Lemma alter_last {A} (f : A -> A) (l : list A) x :
  alter f (length l) (l ++ [x]) = l ++ [f x].
Proof.
  replace (length l) with (length l + 0)%nat by lia.
  rewrite alter_app_r. reflexivity.
Qed.

Lemma insert_last {A} (l : list A) x y :
  <[length l := y]> (l ++ [x]) = l ++ [y].
Proof.
  replace (length l) with (length l + 0)%nat by lia.
  rewrite insert_app_r. reflexivity.
Qed.

Lemma lookup_last {A} (l : list A) x : (l ++ [x]) !! length l = Some x.
Proof. apply list_lookup_middle. reflexivity. Qed.

(** [validateChain], run to completion. *)
Lemma validateChain_drain s :
  microtasks s = [] ->
  fst (validateChain s) = length (promises s) /\
  drain (snd (validateChain s)) = validateChain_final s.
Proof.
  intros Hq. destruct s as [c h now arrs cls ps con q]; simpl in *; subst q.
  split; [reflexivity|].
  unfold validateChain, new_promise, enqueue_all; simpl.
  rewrite callbacks_blocks.
  rewrite <- (drain_run (length (blocks c))).
  rewrite (run_validate_jobs _ _ (length arrs) [])
    by (simpl; rewrite app_nil_r; reflexivity).
  rewrite drain_idle by reflexivity.
  unfold validateChain_final, set_microtasks, set_arrays, audit; simpl.
  rewrite alter_last. reflexivity.
Qed.

(** [_addBlock], run to completion: the jobs of the validation, the
    reaction of line 76, the sealing, the [catch], the [then], and the
    caller that awaits the result. *)
Lemma addBlock_drain block aw s :
  microtasks s = [] ->
  fst (_addBlock block aw s) = S (length (promises s)) /\
  drain (snd (_addBlock block aw s)) = addBlock_final block aw s.
Proof.
  intros Hq. destruct s as [c h now arrs cls ps con q]; simpl in *; subst q.
  unfold _addBlock, validateChain, new_promise, enqueue_all, then_errors, enqueue; simpl.
  rewrite lookup_last. simpl. rewrite callbacks_blocks.
  split. { rewrite length_app. simpl. lia. }
  rewrite <- (drain_run (length (blocks c))).
  erewrite run_validate_jobs by (simpl; rewrite <- app_assoc; reflexivity).
  unfold set_microtasks, set_arrays; simpl. rewrite alter_last. simpl.
  do 2 rewrite <- drain_step. unfold step; simpl.
  unfold set_chainErrorFound, seal, enqueue, set_cells, set_microtasks; simpl.
  rewrite lookup_last, insert_last. simpl.
  fold (sealed block c now).
  change (flat_map (violations c) (blocks c)) with (audit c).
  unfold addBlock_final, pushed, corrupt. simpl.
  set (errors := map render (audit c)).
  set (found := negb (length errors =? 0)%nat).
  destruct (isBlockValid (sealed block c now) c) eqn:Hok;
  do 2 rewrite <- drain_step; unfold step; simpl;
  unfold then_push, set_chain, set_this_height, set_console, set_microtasks; simpl;
  rewrite lookup_last; simpl;
  destruct found; simpl;
  unfold settle; simpl; rewrite lookup_last, insert_last, <- app_assoc; simpl;
  (destruct aw; simpl;
   [ apply drain_idle; reflexivity
   | rewrite <- drain_step; unfold step; simpl; apply drain_idle; reflexivity
   | rewrite <- drain_step; unfold step; simpl; apply drain_idle, microtasks_settle ]).
Qed.

(** [submitStar] up to its call of [_addBlock]. *)
Lemma submitStar_unfold address message signature star s :
  submitStar address message signature star s
  = (length (promises s),
     snd (_addBlock (candidate address star) (AwaitSubmit (length (promises s)))
            (submitStar_entry address message signature s))).
Proof.
  unfold submitStar, new_promise. fold (candidate address star).
  destruct s as [c h now arrs cls ps con q].
  cbn [promises clock set_promises]. f_equal. f_equal.
  unfold submitStar_entry, verdict. cbn [promises clock set_promises].
  destruct (timeHasElapsed message now);
    destruct (verify message address signature);
    cbn [negb]; unfold settle; cbn [promises set_promises];
    rewrite ?lookup_last; cbn [promises set_promises];
    rewrite ?insert_last, ?lookup_last; reflexivity.
Qed.

Lemma fst_pair {A B} (a : A) (b : B) : fst (a, b) = a.
Proof. reflexivity. Qed.

Lemma snd_pair {A B} (a : A) (b : B) : snd (a, b) = b.
Proof. reflexivity. Qed.

Lemma submitStar_fst address message signature star s :
  fst (submitStar address message signature star s) = length (promises s).
Proof. rewrite submitStar_unfold. apply fst_pair. Qed.

Lemma submitStar_snd address message signature star s :
  snd (submitStar address message signature star s)
  = snd (_addBlock (candidate address star) (AwaitSubmit (length (promises s)))
           (submitStar_entry address message signature s)).
Proof. rewrite submitStar_unfold. apply snd_pair. Qed.

Lemma submitStar_drain address message signature star s :
  microtasks s = [] ->
  fst (submitStar address message signature star s) = length (promises s) /\
  drain (snd (submitStar address message signature star s))
  = addBlock_final (candidate address star) (AwaitSubmit (length (promises s)))
      (submitStar_entry address message signature s).
Proof.
  intros Hq. split; [apply submitStar_fst|]. rewrite submitStar_snd.
  apply addBlock_drain. exact Hq.
Qed.

End BigStep.

(** ** The timestamp and the challenge window *)

Section Timestamp.

Context `{Collaborators}.

Lemma all_decimal_toString n : 0 <= n -> all_decimal (JS.toString n).
Proof.
  intros Hn. unfold JS.toString.
  replace (n <? 0) with false by (symmetry; apply Z.ltb_ge; lia).
  apply parseDigits_digits; [lia | unfold JS.fuel; lia].
Qed.

Lemma decimal_no_colon c : decimal c -> Ascii.eqb c ":" = false.
Proof.
  intros [d Hd]. revert Hd.
  destruct c as [[] [] [] [] [] [] [] []]; vm_compute; intros Hd;
    try discriminate; reflexivity.
Qed.

Lemma all_decimal_no_colon s : all_decimal s -> no_colon s.
Proof.
  induction s as [|c s IH]; simpl; auto.
  intros [Hc Hs]. split; auto using decimal_no_colon.
Qed.

Lemma split_no_colon a r :
  no_colon a -> JS.split ":" (a +:+ String ":" r) = a :: JS.split ":" r.
Proof.
  induction a as [|c a IH]; intros Ha.
  - reflexivity.
  - destruct Ha as [Hc Ha]. rewrite append_cons. cbn [JS.split].
    rewrite Hc, IH by assumption. reflexivity.
Qed.

(** The clock in whole seconds, as both [_addBlock] and [submitStar]
    read it. *)
Lemma getUTCTimestamp_toString ms :
  1000 <= ms -> getUTCTimestamp ms = JS.toString (ms / 1000).
Proof. apply slice_toString. Qed.

Lemma currentTime_seconds ms : 1000 <= ms -> currentTime ms = Some (ms / 1000).
Proof.
  intros Hms. unfold currentTime. rewrite getUTCTimestamp_toString by assumption.
  apply parseInt_toString. apply Z.div_pos; lia.
Qed.

(** The timestamp segment of a challenge is read back by [submitStar]. *)
Lemma challenge_segment address ms :
  1000 <= ms -> no_colon address ->
  JS.split ":" (challengeMessage address ms) !! 1%nat = Some (getUTCTimestamp ms).
Proof.
  intros Hms Ha. unfold challengeMessage.
  rewrite append_cons, append_empty.
  rewrite split_no_colon by assumption.
  rewrite getUTCTimestamp_toString by assumption.
  rewrite split_no_colon
    by (apply all_decimal_no_colon, all_decimal_toString, Z.div_pos; lia).
  reflexivity.
Qed.

Lemma requestedTime_challenge address ms :
  1000 <= ms -> no_colon address ->
  requestedTime (challengeMessage address ms) = Some (ms / 1000).
Proof.
  intros Hms Ha. unfold requestedTime. rewrite challenge_segment by assumption.
  apply currentTime_seconds, Hms.
Qed.

End Timestamp.

(** ** What a completed append leaves behind *)

Section Outcomes.

Context `{Collaborators}.

Lemma chain_settle p o s : chain (settle p o s) = chain s.
Proof. unfold settle; repeat case_match; reflexivity. Qed.

Lemma height_settle p o s : height (settle p o s) = height s.
Proof. unfold settle; repeat case_match; reflexivity. Qed.

Lemma chain_resume aw v s : chain (resume aw v s) = chain s.
Proof. destruct aw; simpl; auto using chain_settle. Qed.

Lemma height_resume aw v s : height (resume aw v s) = height s.
Proof. destruct aw; simpl; auto using height_settle. Qed.

Lemma chain_addBlock_final block aw s :
  chain (addBlock_final block aw s)
  = if corrupt (chain s) then chain s else chain s ++ [pushed block s].
Proof. unfold addBlock_final. rewrite chain_resume. reflexivity. Qed.

Lemma height_addBlock_final block aw s :
  height (addBlock_final block aw s)
  = if corrupt (chain s) then height s
    else Z.of_nat (length (chain s ++ [pushed block s])) - 1.
Proof. unfold addBlock_final. rewrite height_resume. reflexivity. Qed.

(** The promise that [_addBlock] returns is always fulfilled: with
    the block pushed, with [undefined] otherwise. *)
Lemma promise_addBlock_final block s :
  promises (addBlock_final block NoAwaiter s) !! S (length (promises s))
  = Some (Fulfilled (if corrupt (chain s) then VUndefined
                     else value_of (pushed block s))).
Proof.
  unfold addBlock_final. simpl.
  change (promises s ++ [?a; ?b]) with (promises s ++ [a] ++ [b]).
  rewrite app_assoc.
  replace (S (length (promises s)))
    with (length (promises s ++ [Fulfilled (VErrors (length (arrays s)))]))
    by (rewrite length_app; simpl; lia).
  apply lookup_last.
Qed.

Lemma corrupt_false c : corrupt c = false <-> audit c = [].
Proof.
  unfold corrupt. destruct (audit c); simpl; split; intros; congruence.
Qed.

(** An append is successful exactly when the chain shows no error and
    the sealed candidate passes the check of line 86; the block
    pushed is the sealed candidate. *)
Lemma appended_addBlock_final block aw s b :
  chain (addBlock_final block aw s) = chain s ++ [Some b] ->
  corrupt (chain s) = false /\
  isBlockValid (sealed block (chain s) (clock s)) (chain s) = true /\
  b = sealed block (chain s) (clock s).
Proof.
  rewrite chain_addBlock_final. unfold pushed.
  destruct (corrupt (chain s)).
  - intros Heq. apply (f_equal (@length _)) in Heq.
    rewrite length_app in Heq. simpl in Heq. lia.
  - intros Heq. apply app_inv_head in Heq.
    destruct (isBlockValid _ _); inversion Heq; auto.
Qed.

(** The promise of [submitStar] once the queue is empty: the first
    rejection if there is one, the outcome of the append otherwise. *)
Lemma promise_submitStar address message signature star s :
  microtasks s = [] ->
  let p := fst (submitStar address message signature star s) in
  let s' := drain (snd (submitStar address message signature star s)) in
  let entry := submitStar_entry address message signature s in
  promises s' !! p
  = Some (match verdict address message signature (clock s) with
          | Some error => Rejected error
          | None => Fulfilled (if corrupt (chain s) then VUndefined
                               else value_of (pushed (candidate address star) entry))
          end).
Proof.
  intros Hq. destruct (submitStar_drain address message signature star s Hq)
    as [Hp Hs]. cbv zeta. rewrite Hp, Hs.
  unfold addBlock_final, submitStar_entry. cbn [resume].
  destruct s as [c h now arrs cls ps con q]. cbn -[verdict pushed corrupt audit].
  unfold settle. cbn -[verdict pushed corrupt audit].
  rewrite (lookup_app_l_Some _ _ _ _ (lookup_last ps _)).
  destruct (verdict address message signature now) as [error|].
  - apply lookup_app_l_Some, lookup_last.
  - cbn -[pushed corrupt audit]. rewrite <- app_assoc. cbn [app].
    rewrite insert_app_r_alt by lia. rewrite Nat.sub_diag. cbn [insert list_insert].
    apply list_lookup_middle. reflexivity.
Qed.

End Outcomes.

(** * The claims *)

Section Claims_time.

Context `{Collaborators}.

(** C10.  [getUTCTimestamp] returns a string, the decimal rendering of
    the millisecond clock without its last three characters.  For a
    reading of at least 1000 milliseconds this is the decimal rendering
    of the whole seconds, floor(ms / 1000).  The same string becomes the
    [time] of the block that [_addBlock] seals, and the segment between
    the colons of the challenge message, which is where [submitStar]
    reads it back. *)
Theorem getUTCTimestamp_whole_seconds
    (ms : Z) (address : string) (block : Block) (aw : Awaiter) (s : State) :
  1000 <= ms ->
  microtasks s = [] ->
  clock s = ms ->
  getUTCTimestamp ms = JS.slice_0_m3 (JS.toString ms) /\
  getUTCTimestamp ms = JS.toString (ms / 1000) /\
  (forall b,
      chain (drain (snd (_addBlock block aw s))) = chain s ++ [Some b] ->
      time b = getUTCTimestamp ms) /\
  promises (snd (requestMessageOwnershipVerification address s))
    !! fst (requestMessageOwnershipVerification address s)
  = Some (Fulfilled (VString
            (address +:+ ":" +:+ getUTCTimestamp ms +:+ ":starRegistry"))) /\
  (no_colon address ->
   JS.split ":" (challengeMessage address ms) !! 1%nat
   = Some (getUTCTimestamp ms)).
Proof.
  intros Hms Hq Hc. repeat split.
  - apply getUTCTimestamp_toString, Hms.
  - intros b Hb. destruct (addBlock_drain block aw s Hq) as [_ Hd].
    rewrite Hd in Hb. apply appended_addBlock_final in Hb.
    destruct Hb as (_ & _ & ->). rewrite Hc. reflexivity.
  - unfold requestMessageOwnershipVerification, new_promise. cbn [fst snd].
    destruct s; simpl in *. rewrite Hc. apply lookup_last.
  - intros Ha. apply challenge_segment; assumption.
Qed.

(** C6.  With a challenge whose timestamp segment parses to [issuedAt]
    and a clock that reads [now] seconds, [submitStar] lets the
    submission through the window check exactly when
    [now - issuedAt <= 300], and its promise is rejected with
    'Time has elapsed' exactly when [now - issuedAt > 300]: 300 seconds
    pass, 301 do not, and a challenge from the future passes. *)
Theorem submission_window
    (address message signature star : string) (s : State) (issuedAt now : Z) :
  microtasks s = [] ->
  requestedTime message = Some issuedAt ->
  currentTime (clock s) = Some now ->
  let p := fst (submitStar address message signature star s) in
  let s' := drain (snd (submitStar address message signature star s)) in
  (timeHasElapsed message (clock s) = false <-> now - issuedAt <= 300) /\
  (promises s' !! p = Some (Rejected "Time has elapsed") <-> 300 < now - issuedAt).
Proof.
  intros Hq Hreq Hcur p s'.
  assert (Hwin : timeHasElapsed message (clock s) = (300 <? now - issuedAt)).
  { unfold timeHasElapsed. rewrite Hreq, Hcur. reflexivity. }
  split.
  - rewrite Hwin. rewrite Z.ltb_ge. reflexivity.
  - subst p s'. rewrite promise_submitStar by assumption.
    unfold verdict. rewrite Hwin.
    destruct (300 <? now - issuedAt) eqn:E.
    + apply Z.ltb_lt in E. split; auto.
    + apply Z.ltb_ge in E. split; [|lia].
      destruct (negb (verify message address signature)); intros Heq;
        inversion Heq.
Qed.

(** C7.  Whatever the payload and the owner of a candidate built by
    the constructor, whatever the chain and the clock, the hash stored
    by [_addBlock] is the digest recomputed from the stored fields of
    the sealed block, hash left out: [validate] accepts the block, the
    payload is the one given, and the block that a successful append
    pushes is this sealed block. *)
Theorem sealed_hash_round_trip
    (data : Data) (who : option string) (aw : Awaiter) (s : State) :
  microtasks s = [] ->
  let fresh := set_owner who (BlockClass.new data) in
  let b := sealed fresh (chain s) (clock s) in
  hash b = Some (recomputeHash b) /\
  validate b = true /\
  body b = data /\
  (forall b',
      chain (drain (snd (_addBlock fresh aw s))) = chain s ++ [Some b'] ->
      b' = b).
Proof.
  intros Hq fresh b.
  assert (Hh : hash b = Some (recomputeHash b)) by reflexivity.
  repeat split; auto.
  - unfold validate. apply bool_decide_eq_true. exact Hh.
  - intros b' Hb'. destruct (addBlock_drain fresh aw s Hq) as [_ Hd].
    rewrite Hd in Hb'. apply appended_addBlock_final in Hb'. tauto.
Qed.

End Claims_time.

Lemma getUTCTimestamp_whole_seconds_witness :
  1000 <= Scenario.t0 /\
  getUTCTimestamp Scenario.t0 = "1700000000" /\
  JS.split ":" (challengeMessage "abc" Scenario.t0) !! 1%nat = Some "1700000000".
Proof.
  destruct (getUTCTimestamp_whole_seconds (H := Demo.collaborators)
              Scenario.t0 "abc" (BlockClass.new GenesisData) NoAwaiter
              (quiet [] (-1) Scenario.t0))
    as (H1 & H2 & _ & _ & H5);
    [unfold Scenario.t0; lia | reflexivity | reflexivity |].
  split; [unfold Scenario.t0; lia|]. split.
  - rewrite H2. reflexivity.
  - rewrite H5 by (repeat split). rewrite H2. reflexivity.
Defined.

(** Exactly 300 seconds after the challenge, with the right signature. *)
Lemma submission_window_witness :
  timeHasElapsed Scenario.message (Scenario.t0 + 300000) = false /\
  promises (drain (snd (Scenario.submit_after 300 Scenario.signature "Sirius"
                          Scenario.created)))
    !! fst (Scenario.submit_after 300 Scenario.signature "Sirius" Scenario.created)
  <> Some (Rejected "Time has elapsed").
Proof.
  destruct (submission_window (H := Demo.collaborators)
              "abc" Scenario.message Scenario.signature "Sirius"
              (set_clock (Scenario.t0 + 300000) Scenario.created)
              1700000000 1700000300)
    as [H1 H2]; [reflexivity | reflexivity | reflexivity |].
  split.
  - apply H1. lia.
  - intros Hrej. apply H2 in Hrej. lia.
Defined.

Lemma sealed_hash_round_trip_witness :
  validate (sealed (set_owner (Some "abc") (BlockClass.new (StarData "Sirius")))
              (chain Scenario.created) (Scenario.t0 + 100000)) = true.
Proof.
  destruct (sealed_hash_round_trip (H := Demo.collaborators)
              (StarData "Sirius") (Some "abc") NoAwaiter
              (set_clock (Scenario.t0 + 100000) Scenario.created))
    as (_ & H2 & _); [reflexivity|].
  exact H2.
Defined.

(** ** The height counter *)

Section Claims_height.

Context `{Collaborators}.

Lemma frame_settle p o s :
  chain (settle p o s) = chain s /\ height (settle p o s) = height s.
Proof. unfold settle; repeat case_match; split; reflexivity. Qed.

Lemma frame_then_errors p f s :
  chain (then_errors p f s) = chain s /\ height (then_errors p f s) = height s.
Proof. unfold then_errors; repeat case_match; split; reflexivity. Qed.

Lemma frame_notify aw v s :
  chain (notify aw v s) = chain s /\ height (notify aw v s) = height s.
Proof. destruct aw; split; reflexivity. Qed.

Lemma frame_addBlock block aw s :
  chain (snd (_addBlock block aw s)) = chain s /\
  height (snd (_addBlock block aw s)) = height s.
Proof.
  unfold _addBlock, validateChain, new_promise.
  cbn [fst snd chain height enqueue set_microtasks set_promises].
  match goal with
  | |- context [then_errors ?p ?f ?s0] =>
      destruct (frame_then_errors p f s0) as [-> ->]
  end.
  split; reflexivity.
Qed.

Lemma frame_submitStar address message signature star s :
  chain (snd (submitStar address message signature star s)) = chain s /\
  height (snd (submitStar address message signature star s)) = height s.
Proof.
  rewrite submitStar_snd.
  destruct (frame_addBlock (candidate address star)
              (AwaitSubmit (length (promises s)))
              (submitStar_entry address message signature s)) as [H1 H2].
  split; [exact H1 | exact H2].
Qed.

Lemma frame_getStars address s :
  chain (snd (getStarsByWalletAddress address s)) = chain s /\
  height (snd (getStarsByWalletAddress address s)) = height s.
Proof.
  unfold getStarsByWalletAddress, new_promise.
  cbn [fst snd chain height enqueue set_microtasks set_promises].
  case_match; cbn [snd]; [split; reflexivity|].
  match goal with
  | |- context [settle ?p ?o ?s0] => destruct (frame_settle p o s0) as [-> ->]
  end.
  split; reflexivity.
Qed.

Lemma frame_initializeChain s :
  chain (initializeChain s) = chain s /\ height (initializeChain s) = height s.
Proof.
  unfold initializeChain. destruct (height s =? -1); auto using frame_addBlock.
Qed.

(** The only job that writes [chain] or [height] writes both. *)
Lemma step_height s :
  height s = Z.of_nat (length (chain s)) - 1 ->
  height (step s) = Z.of_nat (length (chain (step s))) - 1.
Proof.
  intros Hinv. unfold step. destruct (microtasks s) as [|t rest] eqn:Hq; auto.
  assert (Hinv' : height (set_microtasks rest s)
                  = Z.of_nat (length (chain (set_microtasks rest s))) - 1)
    by exact Hinv.
  generalize dependent (set_microtasks rest s). clear. intros s0 Hinv.
  destruct t; cbn [run_task].
  - unfold validateBlock, push_error; repeat case_match; exact Hinv.
  - exact Hinv.
  - exact Hinv.
  - unfold catch_error; destruct r; exact Hinv.
  - unfold then_push. case_match.
    + match goal with
      | |- context [notify ?a ?v ?s1] => destruct (frame_notify a v s1) as [-> ->]
      end.
      match goal with
      | |- context [settle ?p ?o ?s1] => destruct (frame_settle p o s1) as [-> ->]
      end.
      reflexivity.
    + match goal with
      | |- context [notify ?a ?v ?s1] => destruct (frame_notify a v s1) as [-> ->]
      end.
      match goal with
      | |- context [settle ?p ?o ?s1] => destruct (frame_settle p o s1) as [-> ->]
      end.
      exact Hinv.
  - unfold resume. destruct aw; try exact Hinv.
    destruct (frame_settle p (Fulfilled v) s0) as [-> ->]. exact Hinv.
  - unfold resolve_stars.
    match goal with
    | |- context [settle ?p ?o ?s1] => destruct (frame_settle p o s1) as [-> ->]
    end.
    exact Hinv.
Qed.

Lemma live_run n : forall s, live s -> live (run n s).
Proof.
  induction n as [|n IH]; intros s Hs; simpl; auto using live_step.
Qed.

Lemma live_drain s : live s -> live (drain s).
Proof. apply live_run. Qed.

(** C9.  In every state of the program - right after the constructor,
    between any two jobs, after any call, after every append - the
    field [height] is [chain.length - 1], the index of the last block
    and not the number of blocks: -1 on the empty chain, 0 on a chain
    of one block.  [getChainHeight] resolves with this value. *)
Theorem height_is_last_index (s : State) :
  live s ->
  height s = Z.of_nat (length (chain s)) - 1 /\
  (length (chain s) = 1%nat -> height s = 0) /\
  promises (snd (getChainHeight s)) !! fst (getChainHeight s)
  = Some (Fulfilled (VNumber (Z.of_nat (length (chain s)) - 1))).
Proof.
  intros Hlive.
  assert (Hinv : height s = Z.of_nat (length (chain s)) - 1).
  { induction Hlive.
    - unfold new_Blockchain.
      destruct (frame_initializeChain (quiet [] (-1) now)) as [-> ->].
      reflexivity.
    - apply step_height, IHHlive.
    - exact IHHlive.
    - destruct (frame_initializeChain s) as [-> ->]. exact IHHlive.
    - destruct (frame_addBlock block aw s) as [-> ->]. exact IHHlive.
    - destruct (frame_submitStar address message signature star s) as [-> ->].
      exact IHHlive.
    - exact IHHlive.
    - exact IHHlive.
    - exact IHHlive.
    - destruct (frame_getStars address s) as [-> ->]. exact IHHlive. }
  split; [exact Hinv|]. split.
  - intros Hlen. rewrite Hinv, Hlen. reflexivity.
  - unfold getChainHeight, new_promise. cbn [fst snd promises set_promises].
    rewrite Hinv. apply lookup_last.
Qed.

End Claims_height.

(** After the constructor and its jobs, and after a first star. *)
Lemma height_is_last_index_witness :
  height Scenario.created = 0 /\ height Scenario.registered = 1.
Proof.
  assert (L0 : live Scenario.created).
  { unfold Scenario.created. apply live_drain. apply live_new. }
  assert (L1 : live Scenario.registered).
  { unfold Scenario.registered, Scenario.submit_after.
    apply live_drain. apply live_submitStar. apply live_clock. exact L0. }
  destruct (height_is_last_index _ L0) as (H0 & _ & _).
  destruct (height_is_last_index _ L1) as (H1 & _ & _).
  split; [rewrite H0 | rewrite H1]; reflexivity.
Defined.

(** ** The chain invariants *)

Section Claims_links.

Context `{Collaborators}.

Lemma height_sealed block c now :
  BlockClass.height (sealed block c now) = Z.of_nat (length c).
Proof. reflexivity. Qed.

Lemma previous_sealed block c now :
  previousBlockHash (sealed block c now)
  = match chain_at c (Z.of_nat (length c) - 1) with
    | Some previous => hash previous
    | None => None
    end.
Proof. reflexivity. Qed.

Lemma owner_sealed block c now : owner (sealed block c now) = owner block.
Proof. reflexivity. Qed.

Lemma chain_at_index c (i : nat) : chain_at c (Z.of_nat (S i) - 1) = mjoin (c !! i).
Proof.
  unfold chain_at.
  replace (Z.of_nat (S i) - 1 <? 0) with false by (symmetry; apply Z.ltb_ge; lia).
  replace (Z.to_nat (Z.of_nat (S i) - 1)) with i by lia. reflexivity.
Qed.

(** The first block that [_addBlock] seals is a genesis block. *)
Lemma well_linked_genesis block now :
  owner block = None ->
  well_linked [Some (sealed block [] now)].
Proof.
  intros Ho. split; [|split].
  - eexists; repeat split; auto.
  - intros [|i] entry Hi; simpl in Hi; [|discriminate].
    inversion Hi; subst. eexists; split; reflexivity.
  - intros [|i] b Hi; simpl in Hi; discriminate.
Qed.

(** Sealing against a well-linked chain extends it. *)
Lemma well_linked_sealed c block now :
  well_linked c -> well_linked (c ++ [Some (sealed block c now)]).
Proof.
  intros ((g & Hg & Hg0 & Hgp & Hgo) & Hidx & Hlink).
  assert (Hlen : (0 < length c)%nat) by (apply lookup_lt_is_Some; eauto).
  split; [|split].
  - exists g. rewrite lookup_app_l by assumption. auto.
  - intros i entry Hi. apply lookup_app_Some in Hi as [Hi | [Hge Hi]]; eauto.
    apply list_lookup_singleton_Some in Hi as [Hi <-].
    eexists; split; [reflexivity|]. rewrite height_sealed. f_equal. lia.
  - intros i b Hi. apply lookup_app_Some in Hi as [Hi | [Hge Hi]].
    + destruct (Hlink i b Hi) as (a & Ha & Hp). exists a.
      split; auto. apply lookup_app_l_Some, Ha.
    + apply list_lookup_singleton_Some in Hi as [Hi Heq].
      assert (Hi' : length c = S i) by lia.
      destruct (lookup_lt_is_Some_2 c i ltac:(lia)) as [entry He].
      destruct (Hidx i entry He) as (a & -> & _).
      exists a. split; [apply lookup_app_l_Some, He|].
      inversion Heq; subst b. rewrite previous_sealed, Hi', chain_at_index, He.
      reflexivity.
Qed.

Lemma chain_of_blocks (c : list (option Block)) :
  Forall is_Some c -> c = map Some (blocks c).
Proof.
  unfold blocks. induction 1 as [|e c [b ->] _ IH]; [reflexivity|].
  cbn [omap list_omap map]. cbn. f_equal. exact IH.
Qed.

Lemma well_linked_blocks c :
  well_linked c ->
  c = map Some (blocks c) /\
  forall (j : nat) b, blocks c !! j = Some b -> BlockClass.height b = Z.of_nat j.
Proof.
  intros (_ & Hidx & _).
  assert (Hc : c = map Some (blocks c)).
  { apply chain_of_blocks. apply Forall_lookup. intros i e He.
    destruct (Hidx i e He) as (b & -> & _). eexists; reflexivity. }
  split; [exact Hc|]. intros j b Hj.
  assert (He : c !! j = Some (Some b))
    by (rewrite Hc, list_lookup_fmap, Hj; reflexivity).
  destruct (Hidx j _ He) as (b' & Heq & Hh). inversion Heq; subst. exact Hh.
Qed.

Lemma reachable_quiet s : reachable s -> microtasks s = [].
Proof. intros Hr; destruct Hr; apply drain_quiet. Qed.


End Claims_links.


(** ** The validation report *)

Section Claims_validate.

Context `{Collaborators}.

Lemma is_tampered_spec b : is_tampered b = true <-> tampered b.
Proof.
  unfold is_tampered, tampered. rewrite negb_true_iff, bool_decide_eq_false.
  reflexivity.
Qed.

Lemma is_broken_link_spec c b : is_broken_link c b = true <-> broken_link c b.
Proof.
  unfold is_broken_link, broken_link. destruct (0 <? BlockClass.height b) eqn:Hh.
  - apply Z.ltb_lt in Hh.
    destruct (chain_at c (BlockClass.height b - 1)) as [previous|].
    + rewrite negb_true_iff, bool_decide_eq_false. split.
      * intros Hne. split; [assumption|]. exists previous. auto.
      * intros (_ & previous' & Heq & Hne). congruence.
    + split; [discriminate|]. intros (_ & previous' & Heq & _). discriminate.
  - apply Z.ltb_ge in Hh. split; [discriminate|]. intros [Hpos _]. lia.
Qed.

Lemma In_blocks c b : In b (blocks c) <-> In (Some b) c.
Proof.
  unfold blocks. induction c as [|[a|] c IH]; simpl; [tauto| |].
  - rewrite IH. split; intros [Heq|Hin]; auto; left; congruence.
  - rewrite IH. split; [auto|]. intros [Heq|Hin]; [discriminate|auto].
Qed.

Lemma In_violations c b e :
  In e (violations c b) <->
  (is_tampered b = true /\ e = TamperedBlock (BlockClass.height b)) \/
  (is_broken_link c b = true /\
   e = BrokenLink (BlockClass.height b) (BlockClass.height b - 1)).
Proof.
  unfold violations.
  destruct (is_tampered b), (is_broken_link c b); simpl;
    intuition (try discriminate; auto).
Qed.

Lemma count_app {A} (f : A -> bool) l1 l2 :
  count f (l1 ++ l2) = (count f l1 + count f l2)%nat.
Proof. unfold count. rewrite List.filter_app, length_app. reflexivity. Qed.

(** One entry of each kind per block that fails the test. *)
Lemma count_violations c bs :
  count is_TamperedBlock (flat_map (violations c) bs) = count is_tampered bs /\
  count is_BrokenLink (flat_map (violations c) bs) = count (is_broken_link c) bs.
Proof.
  induction bs as [|b bs [IH1 IH2]]; [split; reflexivity|].
  change (flat_map (violations c) (b :: bs))
    with (violations c b ++ flat_map (violations c) bs).
  rewrite !count_app, IH1, IH2. unfold violations, count. simpl.
  destruct (is_tampered b), (is_broken_link c b); split; reflexivity.
Qed.

Lemma heights_violations c b :
  Forall (fun e => error_height e = BlockClass.height b) (violations c b).
Proof.
  unfold violations.
  destruct (is_tampered b), (is_broken_link c b); simpl; repeat constructor.
Qed.

(** Blocks in ascending order of height give a report in ascending
    order of height. *)
Lemma sorted_violations c bs :
  StronglySorted Z.le (map BlockClass.height bs) ->
  StronglySorted Z.le (map error_height (flat_map (violations c) bs)).
Proof.
  induction bs as [|b bs IH]; intros Hs; [constructor|].
  inversion Hs as [|h hs Hs' Hall]; subst.
  change (flat_map (violations c) (b :: bs))
    with (violations c b ++ flat_map (violations c) bs).
  assert (Hrest : Forall (Z.le (BlockClass.height b))
                    (map error_height (flat_map (violations c) bs))).
  { apply List.Forall_forall. intros h Hh. apply in_map_iff in Hh as (e & <- & He).
    apply in_flat_map in He as (b' & Hb' & He).
    pose proof (heights_violations c b') as Hv.
    rewrite List.Forall_forall in Hv. rewrite (Hv e He).
    rewrite List.Forall_forall in Hall. apply Hall. apply in_map. exact Hb'. }
  pose proof (heights_violations c b) as Hv.
  specialize (IH Hs'). rewrite map_app.
  induction Hv as [|e l He Hl IHl]; [exact IH|].
  simpl. constructor; [exact IHl|].
  apply Forall_app. split; [|rewrite He; exact Hrest].
  apply List.Forall_forall. intros h Hh. apply in_map_iff in Hh as (e' & <- & He').
  rewrite List.Forall_forall in Hl. rewrite He, (Hl e' He'). lia.
Qed.

Lemma audit_nil_tests c :
  audit c = [] <-> forall b, In (Some b) c -> ~ tampered b /\ ~ broken_link c b.
Proof.
  split.
  - intros Hnil b Hb. apply In_blocks in Hb.
    assert (Hv : violations c b = []).
    { destruct (violations c b) as [|e l] eqn:Hv; auto.
      assert (Hin : In e (audit c))
        by (apply in_flat_map; exists b; split; auto; rewrite Hv; left; auto).
      rewrite Hnil in Hin. destruct Hin. }
    rewrite <- is_tampered_spec, <- is_broken_link_spec.
    unfold violations in Hv.
    destruct (is_tampered b), (is_broken_link c b); simpl in Hv;
      try discriminate. split; discriminate.
  - intros Hvalid. unfold audit.
    assert (Hall : forall b, In b (blocks c) -> violations c b = []).
    { intros b Hb. apply In_blocks in Hb. destruct (Hvalid b Hb) as [Ht Hl].
      rewrite <- is_tampered_spec in Ht. rewrite <- is_broken_link_spec in Hl.
      unfold violations.
      destruct (is_tampered b), (is_broken_link c b); try reflexivity;
        exfalso; auto. }
    induction (blocks c) as [|b bs IH]; [reflexivity|].
    simpl. rewrite (Hall b) by (left; auto). apply IH.
    intros b' Hb'. apply Hall. right. exact Hb'.
Qed.

(** On a chain that is linked and whose blocks validate, no block
    fails either test. *)
Lemma sound_audit c : sound c -> audit c = [].
Proof.
  intros [(_ & Hidx & Hlink) Hval]. apply audit_nil_tests. intros b Hb. split.
  - intros Ht. specialize (Hval b Hb). unfold validate in Hval.
    apply bool_decide_eq_true in Hval. contradiction.
  - intros (Hpos & previous & Hprev & Hne).
    apply list_elem_of_In, list_elem_of_lookup in Hb as [i Hi].
    destruct (Hidx i _ Hi) as (b' & Heq & Hh). inversion Heq; subst b'.
    destruct i as [|j]; [lia|].
    destruct (Hlink j b Hi) as (a & Ha & Hp).
    rewrite Hh, chain_at_index, Ha in Hprev. simpl in Hprev.
    inversion Hprev; subst. contradiction.
Qed.

Lemma audit_app (before after : list (option Block)) :
  audit (before ++ after) = flat_map (violations (before ++ after)) (blocks before)
                            ++ flat_map (violations (before ++ after)) (blocks after).
Proof. unfold audit, blocks. rewrite omap_app, flat_map_app. reflexivity. Qed.

(** C3.  [validateChain] does not write to the chain.  Its promise is
    fulfilled during the call with the array [errorLog], which is empty
    at that time: the entries arrive with the jobs of the callbacks.
    Once these have run the array holds the complete report: for every
    block in the order of the chain, one entry if its recomputed hash is
    not its stored hash, then one entry if its height is positive and
    its [previousBlockHash] is not the stored hash of the block at
    [height - 1]; nothing stops at the first entry.  The order is that
    of the chain: it ascends in height when the heights ascend along
    the chain.  On a chain that is linked and whose blocks validate the
    report is empty. *)
Theorem validateChain_reports_every_violation (s : State) :
  microtasks s = [] ->
  let p := fst (validateChain s) in
  let called := snd (validateChain s) in
  let report := map render (audit (chain s)) in
  promises called !! p = Some (Fulfilled (VErrors (length (arrays s)))) /\
  errors_of called p = Some [] /\
  errors_of (drain called) p = Some report /\
  chain called = chain s /\
  chain (drain called) = chain s /\
  height (drain called) = height s /\
  (forall before after,
      chain s = before ++ after ->
      audit (chain s)
      = flat_map (violations (chain s)) (blocks before)
        ++ flat_map (violations (chain s)) (blocks after)) /\
  count is_TamperedBlock (audit (chain s)) = count is_tampered (blocks (chain s)) /\
  count is_BrokenLink (audit (chain s))
    = count (is_broken_link (chain s)) (blocks (chain s)) /\
  (forall h,
      In (TamperedBlock h) (audit (chain s)) <->
      exists b, In (Some b) (chain s) /\ BlockClass.height b = h /\ tampered b) /\
  (forall h k,
      In (BrokenLink h k) (audit (chain s)) <->
      exists b, In (Some b) (chain s) /\ BlockClass.height b = h /\ k = h - 1 /\
                broken_link (chain s) b) /\
  (sound (chain s) -> report = []) /\
  (StronglySorted Z.le (map BlockClass.height (blocks (chain s))) ->
   StronglySorted Z.le (map error_height (audit (chain s)))).
Proof.
  intros Hq p called report.
  destruct (validateChain_drain s Hq) as [Hp Hd].
  subst p called. rewrite Hd.
  assert (Hfirst : promises (snd (validateChain s)) !! fst (validateChain s)
                   = Some (Fulfilled (VErrors (length (arrays s)))))
    by (rewrite Hp; apply lookup_last).
  split; [exact Hfirst|]. split.
  { unfold errors_of. rewrite Hfirst.
    unfold validateChain, new_promise, enqueue_all.
    cbn [snd arrays chain set_microtasks set_promises set_arrays].
    apply lookup_last. }
  split.
  { unfold errors_of, validateChain_final. cbn [promises arrays].
    rewrite Hp, lookup_last. apply lookup_last. }
  split; [reflexivity|]. split; [reflexivity|]. split; [reflexivity|].
  split.
  { intros before after Hc. rewrite Hc. apply audit_app. }
  destruct (count_violations (chain s) (blocks (chain s))) as [Hc1 Hc2].
  split; [exact Hc1|]. split; [exact Hc2|]. split.
  { intros h. unfold audit. rewrite in_flat_map. split.
    - intros (b & Hb & He). apply In_violations in He as [[Ht He]|[_ He]];
        [|discriminate].
      inversion He; subst. exists b. rewrite <- In_blocks, <- is_tampered_spec. auto.
    - intros (b & Hb & Hh & Ht). exists b. rewrite In_blocks. split; auto.
      apply In_violations. left. rewrite is_tampered_spec, Hh. auto. }
  split.
  { intros h k. unfold audit. rewrite in_flat_map. split.
    - intros (b & Hb & He). apply In_violations in He as [[_ He]|[Hl He]];
        [discriminate|].
      inversion He; subst. exists b.
      rewrite <- In_blocks, <- is_broken_link_spec. auto.
    - intros (b & Hb & Hh & Hk & Hl). exists b. rewrite In_blocks. split; auto.
      apply In_violations. right. rewrite is_broken_link_spec, Hk, Hh. auto. }
  split.
  { intros Hs. subst report. rewrite (sound_audit _ Hs). reflexivity. }
  apply sorted_violations.
Qed.

End Claims_validate.

(** On the chain of two blocks whose second block has been edited, the
    array holds the one entry once the callbacks have run. *)
Lemma validateChain_reports_every_violation_witness :
  errors_of (drain (snd (validateChain (quiet Scenario.tampered_chain 1 0)))) 0
  = Some ["Block 1 is not valid."].
Proof.
  destruct (validateChain_reports_every_violation
              (quiet Scenario.tampered_chain 1 0) eq_refl)
    as (_ & _ & Hreport & _).
  refine (eq_trans Hreport _). vm_compute. reflexivity.
Defined.

(** C3, where the report says less than the claim.  Two candidates
    handed to [_addBlock] in the same turn leave a chain with two blocks
    of height 1, which is not linked; [validateChain] reports nothing on
    it.  And on a chain whose heights descend, the report descends: the
    entries come in the order of the chain. *)
Theorem validateChain_empty_report_on_unlinked_chain :
  let s := Scenario.overlapped in
  let r := validateChain s in
  let t := quiet Scenario.descending_chain 1 0 in
  let r' := validateChain t in
  microtasks s = [] /\
  map BlockClass.height (blocks (chain s)) = [0; 1; 1] /\
  ~ sound (chain s) /\
  errors_of (drain (snd r)) (fst r) = Some [] /\
  map BlockClass.height (blocks (chain t)) = [1; 0] /\
  errors_of (drain (snd r')) (fst r')
  = Some ["Block 1 is not valid.";
          "Block 1 does not link to previous Block 0.";
          "Block 0 is not valid."].
Proof.
  intros s r t r'.
  assert (Hh : map BlockClass.height (blocks (chain s)) = [0; 1; 1])
    by (vm_compute; reflexivity).
  split; [vm_compute; reflexivity|]. split; [exact Hh|]. split.
  { intros [Hw _]. destruct (well_linked_blocks _ Hw) as [_ Hidx].
    destruct (blocks (chain s)) as [|b0 [|b1 [|b2 rest]]]; try discriminate Hh.
    inversion Hh as [[H0 H1 H2 Hrest]].
    specialize (Hidx 2%nat b2 eq_refl). lia. }
  split; [vm_compute; reflexivity|]. split; vm_compute; reflexivity.
Qed.

(** ** Stars by owner *)

Section Claims_stars.

Context `{Collaborators}.

Lemma mapM_map_Some (bs : list Block) : mapM id (map Some bs) = Some bs.
Proof. induction bs as [|b bs IH]; simpl; [reflexivity|]. rewrite IH. reflexivity. Qed.



End Claims_stars.


(** ** Where the code departs from the claims *)

Section Departures.

Context `{Collaborators}.

(** A submission that [submitStar] rejects goes on to [_addBlock]: on a
    chain without errors the block is appended all the same. *)
Lemma rejected_submission_appends address message signature star s error :
  microtasks s = [] ->
  audit (chain s) = [] ->
  verdict address message signature (clock s) = Some error ->
  let p := fst (submitStar address message signature star s) in
  let s' := drain (snd (submitStar address message signature star s)) in
  promises s' !! p = Some (Rejected error) /\
  chain s' = chain s
             ++ [pushed (candidate address star)
                   (submitStar_entry address message signature s)].
Proof.
  intros Hq Haudit Hv p s'. split.
  - subst p s'. rewrite promise_submitStar by assumption. rewrite Hv. reflexivity.
  - subst s'. destruct (submitStar_drain address message signature star s Hq)
      as [_ ->].
    rewrite chain_addBlock_final.
    change (chain (submitStar_entry address message signature s)) with (chain s).
    apply corrupt_false in Haudit. rewrite Haudit. reflexivity.
Qed.

(** On a chain without errors, a candidate that fails the check of
    line 86 leaves [undefined] in the chain. *)
Lemma invalid_candidate_leaves_hole block s :
  microtasks s = [] ->
  audit (chain s) = [] ->
  isBlockValid (sealed block (chain s) (clock s)) (chain s) = false ->
  let p := fst (_addBlock block NoAwaiter s) in
  let s' := drain (snd (_addBlock block NoAwaiter s)) in
  promises s' !! p = Some (Fulfilled VUndefined) /\
  chain s' = chain s ++ [None] /\
  height s' = Z.of_nat (length (chain s)).
Proof.
  intros Hq Haudit Hbad p s'. subst p s'.
  destruct (addBlock_drain block NoAwaiter s Hq) as [-> ->].
  rewrite promise_addBlock_final, chain_addBlock_final, height_addBlock_final.
  apply corrupt_false in Haudit. rewrite Haudit. unfold pushed. rewrite Hbad.
  repeat split. rewrite length_app. simpl. lia.
Qed.

(** On a chain with errors, [_addBlock] pushes nothing and its promise
    is fulfilled with [undefined]. *)
Lemma corrupt_chain_not_extended block s :
  microtasks s = [] ->
  audit (chain s) <> [] ->
  let p := fst (_addBlock block NoAwaiter s) in
  let s' := drain (snd (_addBlock block NoAwaiter s)) in
  promises s' !! p = Some (Fulfilled VUndefined) /\
  chain s' = chain s /\
  height s' = height s.
Proof.
  intros Hq Haudit p s'. subst p s'.
  destruct (addBlock_drain block NoAwaiter s Hq) as [-> ->].
  rewrite promise_addBlock_final, chain_addBlock_final, height_addBlock_final.
  assert (Hc : corrupt (chain s) = true).
  { destruct (corrupt (chain s)) eqn:Hc; auto.
    apply corrupt_false in Hc. contradiction. }
  rewrite Hc. repeat split.
Qed.

End Departures.

(** C1.  A submission made 400 seconds after its challenge is rejected
    with 'Time has elapsed', and one made in time with a wrong signature
    is rejected with 'Message is invalid'; in both runs the chain of one
    block has two blocks afterwards and [height] has gone from 0 to 1:
    after [reject] the function goes on to build the block and to call
    [_addBlock]. *)
Theorem failed_submission_still_appends :
  let expired := Scenario.submit_after 400 Scenario.signature "Vega" Scenario.created in
  let forged := Scenario.submit_after 100 "forged" "Vega" Scenario.created in
  length (chain Scenario.created) = 1%nat /\
  height Scenario.created = 0 /\
  promises (drain (snd expired)) !! fst expired = Some (Rejected "Time has elapsed") /\
  length (chain (drain (snd expired))) = 2%nat /\
  height (drain (snd expired)) = 1 /\
  promises (drain (snd forged)) !! fst forged = Some (Rejected "Message is invalid") /\
  length (chain (drain (snd forged))) = 2%nat /\
  height (drain (snd forged)) = 1.
Proof. vm_compute. repeat split. Qed.

(** C2.  When the check of line 86 fails, the rejection is caught and
    printed by line 89 and the [then] of line 90 pushes [undefined]: the
    chain grows by one entry that is not a block.  First run: the clock
    reads 999 milliseconds, so [time] is the empty string.  Second run: a
    second submission is made when the first one has passed its [catch]
    and not yet its [then]; its candidate carries height 1 and the chain
    has two blocks when the check looks at it. *)
Theorem invalid_block_pushes_undefined :
  let early := drain (new_Blockchain 999) in
  let first := Scenario.submit_after 100 Scenario.signature "Sirius" Scenario.created in
  let second := Scenario.submit_after 100 Scenario.signature "Vega" (run 4 (snd first)) in
  chain early = [None] /\
  height early = 0 /\
  console early = ["Error Block is invalid and cannot be added"] /\
  map (option_map body) (chain (drain (snd second)))
  = [Some GenesisData; Some (StarData "Sirius"); None] /\
  height (drain (snd second)) = 2 /\
  promises (drain (snd second)) !! fst second = Some (Fulfilled VUndefined).
Proof. vm_compute. repeat split. Qed.

(** C4.  On a chain whose block 1 has been edited, [validateChain]
    reports an error, and [_addBlock] then pushes nothing; its promise
    is not rejected but fulfilled with [undefined], and so is the promise
    of a [submitStar] made in time with the right signature. *)
Theorem corrupt_chain_append_is_not_rejected :
  let s := quiet Scenario.tampered_chain 1 (Scenario.t0 + 200000) in
  let append := _addBlock (candidate "abc" "Vega") NoAwaiter s in
  let message := challengeMessage "abc" (Scenario.t0 + 200000) in
  let submit := submitStar "abc" message (Demo.sign message "abc") "Vega" s in
  map render (audit (chain s)) = ["Block 1 is not valid."] /\
  promises (drain (snd append)) !! fst append = Some (Fulfilled VUndefined) /\
  chain (drain (snd append)) = chain s /\
  promises (drain (snd submit)) !! fst submit = Some (Fulfilled VUndefined) /\
  chain (drain (snd submit)) = chain s.
Proof. vm_compute. repeat split. Qed.

(** ** Appends succeed in the normal course of things

    With a digest of 64 characters, as SHA-256 in hexadecimal has, and a
    clock past the first second of 1970, every submission made on its own
    appends its block: the states of [reachable] are the states of all
    such runs. *)

Section Progress.

Context `{Collaborators}.

Hypothesis digest_length : forall x, String.length (SHA256 x) = 64%nat.

Lemma digits_nonempty f n : JS.digits (S f) n <> EmptyString.
Proof.
  cbn [JS.digits]. destruct (n <? 10); [discriminate|].
  destruct (JS.digits f (n / 10)); discriminate.
Qed.

Lemma getUTCTimestamp_nonempty now : 1000 <= now -> getUTCTimestamp now <> EmptyString.
Proof.
  intros Hnow. rewrite getUTCTimestamp_toString by assumption.
  unfold JS.toString, JS.fuel.
  replace (now / 1000 <? 0) with false
    by (symmetry; apply Z.ltb_ge, Z.div_pos; lia).
  apply digits_nonempty.
Qed.

(** The sealed candidate passes the check of line 86. *)
Lemma isBlockValid_sealed block c now :
  1000 <= now -> isBlockValid (sealed block c now) c = true.
Proof.
  intros Hnow. unfold isBlockValid. cbv zeta.
  change (hash (sealed block c now))
    with (Some (SHA256 (stringify (prepare block c now)))).
  change (time (sealed block c now)) with (getUTCTimestamp now).
  change (BlockClass.height (sealed block c now)) with (Z.of_nat (length c)).
  cbn [from_option id]. unfold id. rewrite digest_length, Z.eqb_refl, Nat.eqb_refl, !andb_true_r.
  apply andb_true_intro. split; apply negb_true_iff, String.eqb_neq.
  - intros Heq. pose proof (digest_length (stringify (prepare block c now))) as Hl.
    rewrite Heq in Hl. discriminate.
  - apply getUTCTimestamp_nonempty, Hnow.
Qed.

Lemma sound_snoc c who data now :
  sound c ->
  sound (c ++ [Some (sealed (set_owner who (BlockClass.new data)) c now)]).
Proof.
  intros [Hw Hv]. split; [apply well_linked_sealed, Hw|].
  intros b Hb. apply in_app_or in Hb as [Hb | [Hb | []]]; [auto|].
  inversion Hb; subst. apply bool_decide_eq_true. reflexivity.
Qed.

(** The constructor leaves a sound chain of one block. *)
Lemma created_sound now :
  1000 <= now ->
  reachable (drain (new_Blockchain now)) /\
  sound (chain (drain (new_Blockchain now))).
Proof.
  intros Hnow.
  assert (Hc : chain (drain (new_Blockchain now))
               = [Some (sealed (BlockClass.new GenesisData) [] now)]).
  { unfold new_Blockchain, initializeChain.
    cbn [height quiet]. change (-1 =? -1) with true. cbv iota.
    destruct (addBlock_drain (BlockClass.new GenesisData) AwaitInit
                (quiet [] (-1) now) eq_refl) as [_ ->].
    rewrite chain_addBlock_final. unfold pushed.
    change (chain (quiet [] (-1) now)) with (@nil (option Block)).
    change (clock (quiet [] (-1) now)) with now.
    rewrite isBlockValid_sealed by assumption. reflexivity. }
  split.
  - apply reach_new. eexists. exact Hc.
  - rewrite Hc. split; [apply well_linked_genesis; reflexivity|].
    intros b [Hb | []]. inversion Hb; subst.
    apply bool_decide_eq_true. reflexivity.
Qed.

(** On a sound chain a submission appends its block, whatever
    [submitStar] tells its caller. *)
Lemma submission_appends x s :
  microtasks s = [] -> sound (chain s) -> 1000 <= sub_clock x ->
  let s' := drain (snd (submitStar (sub_address x) (sub_message x)
                          (sub_signature x) (sub_star x)
                          (set_clock (sub_clock x) s))) in
  chain s' = chain s ++ [Some (sealed (candidate (sub_address x) (sub_star x))
                                 (chain s) (sub_clock x))] /\
  sound (chain s').
Proof.
  intros Hq Hs Hnow s'.
  assert (Hc : chain s' = chain s ++ [Some (sealed (candidate (sub_address x) (sub_star x))
                                              (chain s) (sub_clock x))]).
  { subst s'.
    destruct (submitStar_drain (sub_address x) (sub_message x) (sub_signature x)
                (sub_star x) (set_clock (sub_clock x) s) Hq) as [_ ->].
    rewrite chain_addBlock_final. unfold pushed.
    change (chain (submitStar_entry (sub_address x) (sub_message x)
                     (sub_signature x) (set_clock (sub_clock x) s)))
      with (chain s).
    change (clock (submitStar_entry (sub_address x) (sub_message x)
                     (sub_signature x) (set_clock (sub_clock x) s)))
      with (sub_clock x).
    rewrite (proj2 (corrupt_false (chain s)) (sound_audit _ Hs)).
    rewrite isBlockValid_sealed by assumption. reflexivity. }
  split; [exact Hc|]. rewrite Hc. apply sound_snoc, Hs.
Qed.


(** Every run of the constructor followed by submissions is a sequence
    of successful appends. *)
Lemma submissions_reachable s l s' :
  submitted s l s' ->
  reachable s -> sound (chain s) ->
  Forall (fun x => 1000 <= sub_clock x) l ->
  reachable s' /\ sound (chain s') /\
  length (chain s') = (length (chain s) + length l)%nat.
Proof.
  induction 1 as [s | s x l s1 s' Hs1 Hsub IH]; intros Hr Hs Hl.
  - split; [|split]; auto; simpl; lia.
  - inversion Hl as [|x' l' Hx Hl']; subst x' l'.
    destruct (submission_appends x s (reachable_quiet s Hr) Hs Hx) as [Hc Hs'].
    rewrite <- Hs1 in Hc, Hs'.
    assert (Hr1 : reachable s1).
    { rewrite Hs1. apply reach_submitStar; [exact Hr|].
      rewrite <- Hs1. eexists. exact Hc. }
    destruct (IH Hr1 Hs' Hl') as (Hr2 & Hs2 & Hlen).
    split; [exact Hr2 | split; [exact Hs2|]].
    rewrite Hlen, Hc, length_app. simpl. lia.
Qed.

End Progress.

(** ** Further runs of the scenario *)

(** The window at its edges: 300 seconds pass, 301 do not; a challenge
    from the future passes; a message without a readable timestamp
    passes too, since every comparison with [NaN] is false. *)
Example window_edges :
  timeHasElapsed Scenario.message (Scenario.t0 + 300000) = false /\
  timeHasElapsed Scenario.message (Scenario.t0 + 301000) = true /\
  timeHasElapsed Scenario.message (Scenario.t0 - 50000) = false /\
  timeHasElapsed "abc:soon:starRegistry" Scenario.t0 = false /\
  timeHasElapsed "abc" Scenario.t0 = false.
Proof. vm_compute. repeat split. Qed.

(** A submission in time with the right signature: block 1, owned by
    [abc], and a promise fulfilled with it. *)
Example submission_in_time :
  let r := Scenario.submit_after 100 Scenario.signature "Sirius" Scenario.created in
  exists b,
    promises (drain (snd r)) !! fst r = Some (Fulfilled (VBlock b)) /\
    chain (drain (snd r)) = chain Scenario.created ++ [Some b] /\
    BlockClass.height b = 1 /\ owner b = Some "abc" /\ time b = "1700000100".
Proof. vm_compute. eexists. repeat split. Qed.

(** The round trip of the hash rests on the candidate having no hash
    yet: a block that is sealed a second time keeps its first hash
    inside the digest and no longer validates. *)
Example sealed_twice :
  let once := sealed (candidate "abc" "Sirius") (chain Scenario.created) Scenario.t0 in
  let twice := sealed once (chain Scenario.created) Scenario.t0 in
  validate once = true /\ validate twice = false.
Proof. vm_compute. split; reflexivity. Qed.

(** * Beyond the claims *)

(** * More of the class *)

(** ** The two look-ups *)

Section Lookups.

Context `{Collaborators}.

Lemma find_hash_spec hash c :
  match find_hash hash c with
  | Resolved (Some b) =>
      exists before after,
        c = map Some before ++ Some b :: after /\
        BlockClass.hash b = Some hash /\
        Forall (fun x => BlockClass.hash x <> Some hash) before
  | Resolved None =>
      exists bs, c = map Some bs /\
                 Forall (fun x => BlockClass.hash x <> Some hash) bs
  | RejectedWith error =>
      error = "TypeError" /\
      exists before after,
        c = map Some before ++ None :: after /\
        Forall (fun x => BlockClass.hash x <> Some hash) before
  end.
Proof.
  induction c as [|[b|] c IH]; cbn [find_hash].
  - exists []. split; [reflexivity | constructor].
  - destruct (bool_decide (BlockClass.hash b = Some hash)) eqn:E.
    + apply bool_decide_eq_true in E. exists [], c. repeat split; auto.
    + apply bool_decide_eq_false in E.
      destruct (find_hash hash c) as [[b'|]|error].
      * destruct IH as (before & after & -> & Hb & Hall).
        exists (b :: before), after. repeat split; auto.
      * destruct IH as (bs & -> & Hall). exists (b :: bs). split; auto.
      * destruct IH as (-> & before & after & -> & Hall). split; auto.
        exists (b :: before), after. split; auto.
  - split; auto. exists [], c. split; [reflexivity | constructor].
Qed.

Lemma find_hash_run hash before rest :
  Forall (fun x => BlockClass.hash x <> Some hash) before ->
  find_hash hash (map Some before ++ rest) = find_hash hash rest.
Proof.
  induction 1 as [|x before Hx _ IH]; [reflexivity|].
  cbn [map app find_hash]. rewrite bool_decide_eq_false_2 by assumption. exact IH.
Qed.

(** X1.  [getBlockByHash] resolves with the first block of the chain
    whose stored hash is the one asked for.  It rejects with 'Block not
    found with specified hash: ' followed by the hash when the chain is
    made of blocks none of which carries it, and with the [TypeError] of
    the test when an [undefined] entry comes before any match.  Nothing
    else happens. *)
Theorem getBlockByHash_first_match (hash : string) (c : list (option Block)) :
  (forall b,
      getBlockByHash hash c = Resolved b <->
      exists before after,
        c = map Some before ++ Some b :: after /\
        BlockClass.hash b = Some hash /\
        Forall (fun x => BlockClass.hash x <> Some hash) before) /\
  (getBlockByHash hash c
   = RejectedWith ("Block not found with specified hash: " +:+ hash) <->
   exists bs, c = map Some bs /\
              Forall (fun x => BlockClass.hash x <> Some hash) bs) /\
  (forall error,
      getBlockByHash hash c = RejectedWith error ->
      error = "Block not found with specified hash: " +:+ hash \/
      error = "TypeError").
Proof.
  pose proof (find_hash_spec hash c) as Hspec. unfold getBlockByHash.
  split; [|split].
  - intros b. split.
    + destruct (find_hash hash c) as [[b'|]|error]; intros Heq; inversion Heq; subst.
      exact Hspec.
    + intros (before & after & -> & Hb & Hall).
      rewrite find_hash_run by assumption. cbn [find_hash].
      rewrite bool_decide_eq_true_2 by assumption. reflexivity.
  - split.
    + destruct (find_hash hash c) as [[b'|]|error]; intros Heq;
        try discriminate; [exact Hspec|].
      destruct Hspec as [-> _]. inversion Heq.
    + intros (bs & -> & Hall).
      rewrite <- (app_nil_r (map Some bs)), find_hash_run by assumption.
      reflexivity.
  - intros error. destruct (find_hash hash c) as [[b'|]|error'];
      intros Heq; inversion Heq; subst; auto.
    destruct Hspec as [-> _]. auto.
Qed.

End Lookups.

Section Lookups_height.

Context `{Collaborators}.

Lemma getBlockByHeight_blocks h (bs : list Block) :
  getBlockByHeight h (map Some bs)
  = Resolved (head (filter (fun block => BlockClass.height block = h) bs)).
Proof. unfold getBlockByHeight. rewrite mapM_map_Some. reflexivity. Qed.

Lemma head_filter_first h (bs : list Block) b :
  head (filter (fun block => BlockClass.height block = h) bs) = Some b <->
  exists before after,
    bs = before ++ b :: after /\ BlockClass.height b = h /\
    Forall (fun x => BlockClass.height x <> h) before.
Proof.
  induction bs as [|x bs IH].
  - split; [discriminate|]. intros (before & after & Heq & _).
    destruct before; discriminate.
  - rewrite filter_cons. destruct (decide (BlockClass.height x = h)) as [Hx|Hx].
    + cbn [head]. split.
      * intros Heq. inversion Heq; subst. exists [], bs. repeat split; auto.
      * intros (before & after & Heq & Hb & Hall).
        destruct before as [|y before].
        -- inversion Heq; reflexivity.
        -- inversion Heq; subst. inversion Hall; subst. contradiction.
    + rewrite IH. split.
      * intros (before & after & -> & Hb & Hall).
        exists (x :: before), after. repeat split; auto.
      * intros (before & after & Heq & Hb & Hall).
        destruct before as [|y before].
        -- inversion Heq; subst. contradiction.
        -- inversion Heq; subst. inversion Hall; subst.
           exists before, after. auto.
Qed.

Lemma head_filter_none h (bs : list Block) :
  head (filter (fun block => BlockClass.height block = h) bs) = None <->
  Forall (fun x => BlockClass.height x <> h) bs.
Proof.
  induction bs as [|x bs IH].
  - split; auto.
  - rewrite filter_cons. destruct (decide (BlockClass.height x = h)) as [Hx|Hx].
    + cbn [head]. split; [discriminate|]. intros Hall. inversion Hall; subst.
      contradiction.
    + rewrite IH. split; [auto|]. intros Hall. inversion Hall; auto.
Qed.

Lemma mapM_hole (before after : list (option Block)) :
  mapM id (before ++ None :: after) = None.
Proof.
  induction before as [|[b|] before IH]; cbn; auto. rewrite IH. reflexivity.
Qed.

(** X2.  On a chain of blocks [getBlockByHeight] never rejects: it
    resolves with the first block whose [height] field is the number
    asked for, and with [null] exactly when no block carries that
    height.  An [undefined] entry anywhere in the chain makes it reject
    with the [TypeError] of the test, whatever the height asked for. *)
Theorem getBlockByHeight_first_match
    (h : Z) (bs : list Block) (before after : list (option Block)) :
  (exists r,
      getBlockByHeight h (map Some bs) = Resolved r /\
      (forall b,
          r = Some b <->
          exists front back,
            bs = front ++ b :: back /\ BlockClass.height b = h /\
            Forall (fun x => BlockClass.height x <> h) front) /\
      (r = None <-> Forall (fun x => BlockClass.height x <> h) bs)) /\
  getBlockByHeight h (before ++ None :: after) = RejectedWith "TypeError".
Proof.
  split.
  - eexists. split; [apply getBlockByHeight_blocks|]. split.
    + intros b. apply head_filter_first.
    + apply head_filter_none.
  - unfold getBlockByHeight. rewrite mapM_hole. reflexivity.
Qed.

Lemma head_filter_index h : forall (bs : list Block) k,
  (forall (j : nat) b, bs !! j = Some b -> BlockClass.height b = k + Z.of_nat j) ->
  head (filter (fun block => BlockClass.height block = h) bs)
  = if decide (k <= h) then bs !! Z.to_nat (h - k) else None.
Proof.
  induction bs as [|x bs IH]; intros k Hidx.
  - cbn. destruct (decide (k <= h)); reflexivity.
  - assert (Hx : BlockClass.height x = k)
      by (rewrite (Hidx 0%nat x eq_refl); lia).
    rewrite filter_cons. destruct (decide (BlockClass.height x = h)) as [Hh|Hh].
    + cbn [head]. rewrite decide_True by lia.
      replace (Z.to_nat (h - k)) with 0%nat by lia. reflexivity.
    + rewrite (IH (k + 1)).
      * destruct (decide (k + 1 <= h)).
        -- rewrite decide_True by lia.
           replace (Z.to_nat (h - k)) with (S (Z.to_nat (h - (k + 1)))) by lia.
           reflexivity.
        -- rewrite decide_False by lia. reflexivity.
      * intros j b Hj. rewrite (Hidx (S j) b Hj). lia.
Qed.

(** The invariants of the chain in the states of [reachable]. *)
Lemma reachable_linked s : reachable s -> well_linked (chain s).
Proof.
  intros Hr.
  induction Hr as [now s' Happ | s now block Hr IH s' Happ
                  | s now address message signature star Hr IH s' Happ].
  - subst s'. unfold new_Blockchain, initializeChain in *.
    cbn [height quiet] in *. change (-1 =? -1) with true in *. cbv iota in *.
    destruct (addBlock_drain (BlockClass.new GenesisData) AwaitInit
                (quiet [] (-1) now) eq_refl) as [_ Hd].
    rewrite Hd in *. destruct Happ as [b Hb]. rewrite Hb.
    apply appended_addBlock_final in Hb as (_ & _ & ->).
    apply well_linked_genesis. reflexivity.
  - subst s'.
    assert (Hq : microtasks (set_clock now s) = [])
      by (apply reachable_quiet in Hr; exact Hr).
    destruct (addBlock_drain block NoAwaiter (set_clock now s) Hq) as [_ Hd].
    rewrite Hd in *. destruct Happ as [b Hb]. rewrite Hb.
    apply (appended_addBlock_final block NoAwaiter (set_clock now s))
      in Hb as (_ & _ & ->).
    apply well_linked_sealed, IH.
  - subst s'.
    assert (Hq : microtasks (set_clock now s) = [])
      by (apply reachable_quiet in Hr; exact Hr).
    destruct (submitStar_drain address message signature star
                (set_clock now s) Hq) as [_ Hd].
    rewrite Hd in *. destruct Happ as [b Hb]. rewrite Hb.
    apply (appended_addBlock_final (candidate address star)
             (AwaitSubmit (length (promises (set_clock now s))))
             (submitStar_entry address message signature (set_clock now s)))
      in Hb as (_ & _ & ->).
    apply well_linked_sealed, IH.
Qed.

(** X3.  After the initialization and any sequence of successful
    appends, [getBlockByHeight(h)] resolves with the entry of the chain
    at index [h]: the block of that height for [0 <= h <= this.height],
    and [null] for a negative height or one past the last block. *)
Theorem getBlockByHeight_is_index (s : State) (h : Z) :
  reachable s ->
  getBlockByHeight h (chain s) = Resolved (chain_at (chain s) h) /\
  (0 <= h < Z.of_nat (length (chain s)) ->
   exists b, getBlockByHeight h (chain s) = Resolved (Some b) /\
             BlockClass.height b = h) /\
  (h < 0 \/ Z.of_nat (length (chain s)) <= h ->
   getBlockByHeight h (chain s) = Resolved None).
Proof.
  intros Hr. apply reachable_linked in Hr.
  destruct (well_linked_blocks _ Hr) as [Hc Hidx].
  assert (Hget : getBlockByHeight h (chain s) = Resolved (chain_at (chain s) h)).
  { rewrite Hc at 1. rewrite getBlockByHeight_blocks.
    rewrite (head_filter_index h (blocks (chain s)) 0)
      by (intros j b Hj; rewrite (Hidx j b Hj); lia).
    unfold chain_at. f_equal. destruct (decide (0 <= h)).
    - replace (h <? 0) with false by (symmetry; apply Z.ltb_ge; lia).
      rewrite Z.sub_0_r. rewrite Hc at 2. rewrite list_lookup_fmap.
      destruct (blocks (chain s) !! Z.to_nat h); reflexivity.
    - replace (h <? 0) with true by (symmetry; apply Z.ltb_lt; lia).
      reflexivity. }
  split; [exact Hget|]. split.
  - intros Hh. rewrite Hget. unfold chain_at.
    replace (h <? 0) with false by (symmetry; apply Z.ltb_ge; lia).
    destruct (lookup_lt_is_Some_2 (chain s) (Z.to_nat h) ltac:(lia)) as [e He].
    destruct Hr as (_ & Hi & _). destruct (Hi _ _ He) as (b & -> & Hb).
    exists b. rewrite He. split; [reflexivity|]. rewrite Hb. lia.
  - intros Hh. rewrite Hget. unfold chain_at. destruct Hh as [Hh|Hh].
    + replace (h <? 0) with true by (symmetry; apply Z.ltb_lt; lia). reflexivity.
    + replace (h <? 0) with false by (symmetry; apply Z.ltb_ge; lia).
      rewrite lookup_ge_None_2 by lia. reflexivity.
Qed.

End Lookups_height.

Lemma getBlockByHeight_is_index_witness :
  reachable Scenario.registered /\
  exists b, getBlockByHeight 1 (chain Scenario.registered) = Resolved (Some b) /\
            body b = StarData "Sirius".
Proof.
  assert (R0 : reachable Scenario.created).
  { apply reach_new. vm_compute. eexists. reflexivity. }
  assert (R1 : reachable Scenario.registered).
  { apply (reach_submitStar Scenario.created (Scenario.t0 + 1000 * 100)
             "abc" Scenario.message Scenario.signature "Sirius" R0).
    vm_compute. eexists. reflexivity. }
  split; [exact R1|].
  destruct (getBlockByHeight_is_index Scenario.registered 1 R1) as (Hget & _ & _).
  eexists. split; [refine (eq_trans Hget _); vm_compute; reflexivity|].
  reflexivity.
Defined.

(** ** What no job and no call ever does *)

Section Never.

Context `{Collaborators}.

Lemma chain_step s :
  chain (step s) = chain s \/ exists entry, chain (step s) = chain s ++ [entry].
Proof.
  unfold step. destruct (microtasks s) as [|t rest]; [left; reflexivity|].
  change (chain s) with (chain (set_microtasks rest s)).
  generalize (set_microtasks rest s). intros s0.
  destruct t; cbn [run_task].
  - left. unfold validateBlock, push_error. repeat case_match; reflexivity.
  - left. reflexivity.
  - left. reflexivity.
  - left. unfold catch_error. destruct r; reflexivity.
  - unfold then_push. case_match.
    + right. exists block.
      match goal with
      | |- context [notify ?a ?v ?s1] => destruct (frame_notify a v s1) as [-> _]
      end.
      match goal with
      | |- context [settle ?q ?o ?s1] => destruct (frame_settle q o s1) as [-> _]
      end.
      reflexivity.
    + left.
      match goal with
      | |- context [notify ?a ?v ?s1] => destruct (frame_notify a v s1) as [-> _]
      end.
      match goal with
      | |- context [settle ?q ?o ?s1] => destruct (frame_settle q o s1) as [-> _]
      end.
      reflexivity.
  - left. unfold resume. destruct aw; try reflexivity. apply frame_settle.
  - left. unfold resolve_stars. apply frame_settle.
Qed.

(** X4.  The chain is append-only.  In a program that calls the public
    methods only, running [n] jobs leaves the entries of the chain where
    they are and adds at most [n] entries at the end; and the calls
    themselves ([submitStar], [validateChain],
    [getStarsByWalletAddress], [initializeChain]) do not write to the
    chain at all: only a job does. *)
Theorem chain_is_append_only (s : State) (n : nat) :
  served s ->
  (exists more,
      chain (run n s) = chain s ++ more /\ (length more <= n)%nat) /\
  (forall address message signature star,
      chain (snd (submitStar address message signature star s)) = chain s) /\
  chain (snd (validateChain s)) = chain s /\
  (forall address, chain (snd (getStarsByWalletAddress address s)) = chain s) /\
  chain (initializeChain s) = chain s.
Proof.
  intros _. split.
  - revert s. induction n as [|n IH]; intros s.
    + exists []. split; [symmetry; apply app_nil_r | simpl; lia].
    + cbn [run]. destruct (IH (step s)) as (more & Hm & Hlen).
      destruct (chain_step s) as [Hs | [entry Hs]]; rewrite Hs in Hm.
      * exists more. split; [exact Hm | lia].
      * exists (entry :: more). rewrite <- app_assoc in Hm.
        split; [exact Hm | simpl; lia].
  - split; [intros; apply frame_submitStar|].
    split; [reflexivity|].
    split; [intros; apply frame_getStars|].
    apply frame_initializeChain.
Qed.

End Never.

(** The first jobs of the constructor keep the empty chain and add at
    most one entry each. *)
Lemma chain_is_append_only_witness :
  exists more,
    chain (run 4 (new_Blockchain Scenario.t0)) = chain (new_Blockchain Scenario.t0) ++ more /\
    (length more <= 4)%nat.
Proof.
  exact (proj1 (chain_is_append_only (new_Blockchain Scenario.t0) 4
                  (served_new Scenario.t0))).
Defined.

(** ** What the promises of an append and of a submission say *)

Section Reports.

Context `{Collaborators}.

(** X6.  The promise that [_addBlock] returns is never rejected and
    never left pending: once the jobs have run it is fulfilled, with a
    block exactly when that block has been pushed at the end of the
    chain, and with [undefined] exactly when the chain is as it was or
    has grown by an [undefined] entry. *)
Theorem addBlock_promise_reports_push (block : Block) (s : State) :
  microtasks s = [] ->
  let p := fst (_addBlock block NoAwaiter s) in
  let s' := drain (snd (_addBlock block NoAwaiter s)) in
  (exists v, promises s' !! p = Some (Fulfilled v)) /\
  (forall b,
      promises s' !! p = Some (Fulfilled (VBlock b)) <->
      chain s' = chain s ++ [Some b]) /\
  (promises s' !! p = Some (Fulfilled VUndefined) <->
   chain s' = chain s \/ chain s' = chain s ++ [None]).
Proof.
  intros Hq p s'. subst p s'.
  destruct (addBlock_drain block NoAwaiter s Hq) as [-> ->].
  rewrite promise_addBlock_final, chain_addBlock_final.
  assert (Hlen : forall e, chain s <> chain s ++ [e]).
  { intros e Heq. apply (f_equal (@length _)) in Heq.
    rewrite length_app in Heq. simpl in Heq. lia. }
  destruct (corrupt (chain s)); [|destruct (pushed block s) as [b0|]];
    cbn [value_of].
  - split; [eauto|]. split.
    + intros b. split; [discriminate|]. intros Heq. destruct (Hlen _ Heq).
    + split; auto.
  - split; [eauto|]. split.
    + intros b. split; intros Heq.
      * inversion Heq; reflexivity.
      * apply app_inv_head in Heq. inversion Heq; reflexivity.
    + split; [discriminate|]. intros [Heq|Heq].
      * symmetry in Heq. destruct (Hlen _ Heq).
      * apply app_inv_head in Heq. discriminate.
  - split; [eauto|]. split.
    + intros b. split; [discriminate|]. intros Heq.
      apply app_inv_head in Heq. discriminate.
    + split; auto.
Qed.

Lemma chain_submitStar_final address message signature star s :
  microtasks s = [] ->
  chain (drain (snd (submitStar address message signature star s)))
  = chain (drain (snd (_addBlock (candidate address star) NoAwaiter s))).
Proof.
  intros Hq.
  destruct (submitStar_drain address message signature star s Hq) as [_ ->].
  destruct (addBlock_drain (candidate address star) NoAwaiter s Hq) as [_ ->].
  rewrite !chain_addBlock_final. reflexivity.
Qed.

(** X7.  The promise of [submitStar], once the jobs have run, is
    rejected with 'Time has elapsed' exactly when the window check fails,
    whatever the signature; rejected with 'Message is invalid' exactly
    when the window check passes and [verify] says no; and fulfilled
    exactly when both checks pass.  So the expiry is reported before the
    signature, and one error at most. *)
Theorem submitStar_reports_first_failure
    (address message signature star : string) (s : State) :
  microtasks s = [] ->
  let p := fst (submitStar address message signature star s) in
  let s' := drain (snd (submitStar address message signature star s)) in
  (promises s' !! p = Some (Rejected "Time has elapsed") <->
   timeHasElapsed message (clock s) = true) /\
  (promises s' !! p = Some (Rejected "Message is invalid") <->
   timeHasElapsed message (clock s) = false /\
   verify message address signature = false) /\
  ((exists v, promises s' !! p = Some (Fulfilled v)) <->
   timeHasElapsed message (clock s) = false /\
   verify message address signature = true).
Proof.
  intros Hq p s'. subst p s'. rewrite promise_submitStar by assumption.
  unfold verdict.
  destruct (timeHasElapsed message (clock s));
    destruct (verify message address signature); cbn [negb];
    (split; [|split]); split; intros Hx;
    first [ reflexivity
          | discriminate Hx
          | split; reflexivity
          | eexists; reflexivity
          | destruct Hx as [Hx1 Hx2]; discriminate
          | destruct Hx as [v Hx]; discriminate Hx ].
Qed.

(** X8.  The window check of [submitStar] has no say in what happens
    to the chain.  For a signature that the verifier accepts, the chain
    after the jobs have run is the one that a bare [_addBlock] of the
    same candidate leaves, whatever time the message carries and
    whatever the clock reads; so two accepted submissions of one star
    under one address leave the same chain, expired or not. *)
Theorem submitStar_chain_ignores_window
    (address message signature star : string) (s : State) :
  microtasks s = [] ->
  verify message address signature = true ->
  chain (drain (snd (submitStar address message signature star s)))
  = chain (drain (snd (_addBlock (candidate address star) NoAwaiter s))) /\
  forall message' signature',
    verify message' address signature' = true ->
    chain (drain (snd (submitStar address message' signature' star s)))
    = chain (drain (snd (submitStar address message signature star s))).
Proof.
  intros Hq _. split; [apply chain_submitStar_final, Hq|].
  intros message' signature' _.
  rewrite !chain_submitStar_final by assumption. reflexivity.
Qed.

(** X9.  A timestamp that cannot be read never expires: when the
    segment after the first colon of the message does not start with a
    number (or the message has no colon), or when the clock reads less
    than a second so that [getUTCTimestamp] is empty, the difference is
    [NaN] and [submitStar] does not reject with 'Time has elapsed',
    whatever the other time is. *)
Theorem unreadable_time_never_expires
    (address message signature star : string) (s : State) :
  microtasks s = [] ->
  requestedTime message = JS.NaN \/ currentTime (clock s) = JS.NaN ->
  let p := fst (submitStar address message signature star s) in
  let s' := drain (snd (submitStar address message signature star s)) in
  timeHasElapsed message (clock s) = false /\
  promises s' !! p <> Some (Rejected "Time has elapsed").
Proof.
  intros Hq Hnan p s'.
  assert (Hw : timeHasElapsed message (clock s) = false).
  { unfold timeHasElapsed. destruct Hnan as [-> | ->].
    - destruct (currentTime (clock s)); reflexivity.
    - reflexivity. }
  split; [exact Hw|]. subst p s'. rewrite promise_submitStar by assumption.
  unfold verdict. rewrite Hw.
  destruct (negb (verify message address signature)); discriminate.
Qed.

(** X10.  A challenge issued by [requestMessageOwnershipVerification] is
    read back by [submitStar]: for an address without colon and clock
    readings of a second or more, the requested time is the whole second
    of the issue, and the window check compares whole seconds.  Up to
    300000 milliseconds after the issue the submission passes; from
    301000 milliseconds on it is rejected. *)
Theorem challenge_round_trip (address : string) (issued now : Z) :
  1000 <= issued ->
  1000 <= now ->
  no_colon address ->
  requestedTime (challengeMessage address issued) = Some (issued / 1000) /\
  timeHasElapsed (challengeMessage address issued) now
  = (300 <? now / 1000 - issued / 1000) /\
  (now - issued <= 300000 ->
   timeHasElapsed (challengeMessage address issued) now = false) /\
  (301000 <= now - issued ->
   timeHasElapsed (challengeMessage address issued) now = true).
Proof.
  intros Hi Hn Ha.
  assert (Hw : timeHasElapsed (challengeMessage address issued) now
               = (300 <? now / 1000 - issued / 1000)).
  { unfold timeHasElapsed.
    rewrite requestedTime_challenge, currentTime_seconds by assumption.
    reflexivity. }
  split; [apply requestedTime_challenge; assumption|].
  split; [exact Hw|].
  pose proof (Z.div_mod now 1000 ltac:(lia)) as Hdn.
  pose proof (Z.mod_pos_bound now 1000 ltac:(lia)) as Hmn.
  pose proof (Z.div_mod issued 1000 ltac:(lia)) as Hdi.
  pose proof (Z.mod_pos_bound issued 1000 ltac:(lia)) as Hmi.
  split; intros Hd; rewrite Hw.
  - apply Z.ltb_ge. lia.
  - apply Z.ltb_lt. lia.
Qed.

End Reports.

Lemma addBlock_promise_reports_push_witness :
  let r := _addBlock (candidate "abc" "Sirius") NoAwaiter
             (set_clock (Scenario.t0 + 100000) Scenario.created) in
  exists b, promises (drain (snd r)) !! fst r = Some (Fulfilled (VBlock b)).
Proof.
  intros r.
  destruct (addBlock_promise_reports_push (candidate "abc" "Sirius")
              (set_clock (Scenario.t0 + 100000) Scenario.created) eq_refl)
    as (_ & Hpush & _).
  eexists. apply Hpush. vm_compute. reflexivity.
Defined.

(** Expired and forged at once: the expiry is what is reported. *)
Lemma submitStar_reports_first_failure_witness :
  let r := Scenario.submit_after 400 "forged" "Vega" Scenario.created in
  promises (drain (snd r)) !! fst r = Some (Rejected "Time has elapsed").
Proof.
  intros r.
  destruct (submitStar_reports_first_failure "abc" Scenario.message "forged" "Vega"
              (set_clock (Scenario.t0 + 1000 * 400) Scenario.created) eq_refl)
    as (Hexp & _ & _).
  apply Hexp. vm_compute. reflexivity.
Defined.

(** A submission 400 seconds after its challenge and one with a
    challenge of the same second, both signed: the same chain. *)
Lemma submitStar_chain_ignores_window_witness :
  let s := set_clock (Scenario.t0 + 400000) Scenario.created in
  let fresh := challengeMessage "abc" (Scenario.t0 + 400000) in
  timeHasElapsed Scenario.message (clock s) = true /\
  timeHasElapsed fresh (clock s) = false /\
  chain (drain (snd (submitStar "abc" fresh (Demo.sign fresh "abc") "Vega" s)))
  = chain (drain (snd (submitStar "abc" Scenario.message Scenario.signature "Vega" s))).
Proof.
  intros s fresh.
  split; [vm_compute; reflexivity|]. split; [vm_compute; reflexivity|].
  destruct (submitStar_chain_ignores_window "abc" Scenario.message
              Scenario.signature "Vega" s)
    as [_ Hany]; [reflexivity | vm_compute; reflexivity |].
  apply (Hany fresh (Demo.sign fresh "abc")). vm_compute. reflexivity.
Defined.

Lemma unreadable_time_never_expires_witness :
  timeHasElapsed "abc:soon:starRegistry" (Scenario.t0 + 1000 * 100000) = false.
Proof.
  destruct (unreadable_time_never_expires "abc" "abc:soon:starRegistry"
              Scenario.signature "Vega"
              (set_clock (Scenario.t0 + 1000 * 100000) Scenario.created) eq_refl)
    as [Hw _]; [left; vm_compute; reflexivity|].
  exact Hw.
Defined.

Lemma challenge_round_trip_witness :
  timeHasElapsed (challengeMessage "abc" Scenario.t0) (Scenario.t0 + 300000) = false /\
  timeHasElapsed (challengeMessage "abc" Scenario.t0) (Scenario.t0 + 301000) = true.
Proof.
  destruct (challenge_round_trip "abc" Scenario.t0 (Scenario.t0 + 300000))
    as (_ & _ & Hin & _);
    [unfold Scenario.t0; lia | unfold Scenario.t0; lia | repeat split |].
  destruct (challenge_round_trip "abc" Scenario.t0 (Scenario.t0 + 301000))
    as (_ & _ & _ & Hout);
    [unfold Scenario.t0; lia | unfold Scenario.t0; lia | repeat split |].
  split; [apply Hin | apply Hout]; lia.
Defined.

(** ** Submissions made one after the other *)

Section Sequences.

Context `{Collaborators}.

Hypothesis digest_length : forall x, String.length (SHA256 x) = 64%nat.

Lemma blocks_snoc c b : blocks (c ++ [Some b]) = blocks c ++ [b].
Proof. unfold blocks. rewrite omap_app. reflexivity. Qed.

Lemma run_keeps_height n : forall s,
  height s = Z.of_nat (length (chain s)) - 1 ->
  height (run n s) = Z.of_nat (length (chain (run n s))) - 1.
Proof.
  induction n as [|n IH]; intros s Hs; cbn [run]; auto using step_height.
Qed.

Lemma submitted_chain s l s' :
  submitted s l s' ->
  microtasks s = [] -> sound (chain s) ->
  height s = Z.of_nat (length (chain s)) - 1 ->
  Forall (fun x => 1000 <= sub_clock x) l ->
  sound (chain s') /\
  height s' = Z.of_nat (length (chain s')) - 1 /\
  map body (blocks (chain s'))
  = map body (blocks (chain s)) ++ map (fun x => StarData (sub_star x)) l /\
  map owner (blocks (chain s'))
  = map owner (blocks (chain s)) ++ map (fun x => Some (sub_address x)) l.
Proof.
  induction 1 as [s | s x l s1 s' Hs1 Hsub IH]; intros Hq Hs Hh Hl.
  - cbn [map]. rewrite !app_nil_r. auto.
  - inversion Hl as [|x' l' Hx Hl']; subst x' l'.
    destruct (submission_appends digest_length x s Hq Hs Hx) as [Hc Hs'].
    rewrite <- Hs1 in Hc, Hs'.
    assert (Hq1 : microtasks s1 = []) by (rewrite Hs1; apply drain_quiet).
    assert (Hh1 : height s1 = Z.of_nat (length (chain s1)) - 1).
    { rewrite Hs1. apply run_keeps_height.
      destruct (frame_submitStar (sub_address x) (sub_message x) (sub_signature x)
                  (sub_star x) (set_clock (sub_clock x) s)) as [-> ->].
      exact Hh. }
    destruct (IH Hq1 Hs' Hh1 Hl') as (Hs2 & Hh2 & Hb & Ho).
    split; [exact Hs2|]. split; [exact Hh2|].
    rewrite Hb, Ho, Hc, blocks_snoc, !map_app, <- !app_assoc. split; reflexivity.
Qed.

Lemma created_chain now :
  1000 <= now ->
  chain (drain (new_Blockchain now))
  = [Some (sealed (BlockClass.new GenesisData) [] now)].
Proof.
  intros Hnow. unfold new_Blockchain, initializeChain.
  cbn [height quiet]. change (-1 =? -1) with true. cbv iota.
  destruct (addBlock_drain (BlockClass.new GenesisData) AwaitInit
              (quiet [] (-1) now) eq_refl) as [_ ->].
  rewrite chain_addBlock_final. unfold pushed.
  change (chain (quiet [] (-1) now)) with (@nil (option Block)).
  change (clock (quiet [] (-1) now)) with now.
  rewrite (isBlockValid_sealed digest_length) by assumption. reflexivity.
Qed.

(** X11.  With a digest of 64 characters and a clock past the first
    second, the constructor leaves the chain empty and [height] at -1
    when it returns, and the genesis block arrives with its jobs.  From
    there, submissions with signatures that the verifier accepts, made
    one after the other, all append, whatever the window check says:
    after [n] submissions the chain holds [n + 1] blocks, [height] is
    [n], the payloads and owners are those submitted, in order, after
    the genesis block, the chain is linked and [validateChain] has
    nothing to report. *)
Theorem sequential_submissions_all_append
    (now : Z) (l : list Submission) (s' : State) :
  1000 <= now ->
  Forall (fun x => 1000 <= sub_clock x) l ->
  Forall (fun x => verify (sub_message x) (sub_address x) (sub_signature x) = true) l ->
  submitted (drain (new_Blockchain now)) l s' ->
  chain (new_Blockchain now) = [] /\
  height (new_Blockchain now) = -1 /\
  length (chain s') = S (length l) /\
  height s' = Z.of_nat (length l) /\
  map body (blocks (chain s')) = GenesisData :: map (fun x => StarData (sub_star x)) l /\
  map owner (blocks (chain s')) = None :: map (fun x => Some (sub_address x)) l /\
  well_linked (chain s') /\
  audit (chain s') = [].
Proof.
  intros Hnow Hl _ Hsub.
  assert (Hc0 : chain (new_Blockchain now) = [] /\ height (new_Blockchain now) = -1).
  { unfold new_Blockchain.
    destruct (frame_initializeChain (quiet [] (-1) now)) as [-> ->].
    split; reflexivity. }
  destruct Hc0 as [Hc0 Hh0]. split; [exact Hc0|]. split; [exact Hh0|].
  destruct (created_sound digest_length now Hnow) as [_ Hs0].
  pose proof (created_chain now Hnow) as Hg.
  assert (Hhg : height (drain (new_Blockchain now))
                = Z.of_nat (length (chain (drain (new_Blockchain now)))) - 1).
  { apply run_keeps_height. rewrite Hc0, Hh0. reflexivity. }
  destruct (submitted_chain _ _ _ Hsub (drain_quiet _) Hs0 Hhg Hl)
    as (Hs' & Hh' & Hb & Ho).
  rewrite Hg in Hb, Ho. cbn in Hb, Ho.
  assert (Hlen : length (chain s') = S (length l)).
  { destruct Hs' as [Hw _]. destruct (well_linked_blocks _ Hw) as [Hc _].
    rewrite Hc, length_map, <- (length_map body), Hb. cbn. rewrite length_map.
    reflexivity. }
  split; [exact Hlen|]. split; [rewrite Hh', Hlen; lia|].
  split; [exact Hb|]. split; [exact Ho|].
  split; [apply Hs'|]. apply sound_audit, Hs'.
Qed.

End Sequences.

Lemma length_hex n : forall v acc,
  String.length (Demo.hex n v acc) = (n + String.length acc)%nat.
Proof.
  induction n as [|n IH]; intros v acc; [reflexivity|].
  cbn [Demo.hex]. rewrite IH. cbn [String.length]. lia.
Qed.

Lemma length_digest x : String.length (Demo.digest x) = 64%nat.
Proof. unfold Demo.digest. rewrite length_hex. reflexivity. Qed.

(** One submission after the constructor, signed, 400 seconds after
    its challenge: rejected for its time and appended all the same. *)
Lemma sequential_submissions_all_append_witness :
  let x := mkSubmission (Scenario.t0 + 400000) "abc" Scenario.message
             Scenario.signature "Vega" in
  let s' := drain (snd (submitStar (sub_address x) (sub_message x) (sub_signature x)
                          (sub_star x)
                          (set_clock (sub_clock x) (drain (new_Blockchain Scenario.t0))))) in
  map body (blocks (chain s')) = [GenesisData; StarData "Vega"] /\
  height s' = 1.
Proof.
  intros x s'.
  destruct (sequential_submissions_all_append (H := Demo.collaborators)
              length_digest Scenario.t0 [x] s')
    as (_ & _ & _ & Hh & Hb & _).
  - unfold Scenario.t0. lia.
  - constructor; [|constructor]. unfold x, Scenario.t0. cbn [sub_clock]. lia.
  - constructor; [vm_compute; reflexivity | constructor].
  - exact (submitted_cons _ x [] s' s' eq_refl (submitted_nil s')).
  - split; [exact Hb | exact Hh].
Defined.

(** ** What [validateChain] sees and what it does not see *)

Section Sight.

Context `{Collaborators}.

Lemma flat_map_all_nil {A B} (f : A -> list B) l :
  (forall x, In x l -> f x = []) -> flat_map f l = [].
Proof.
  induction l as [|x l IH]; intros Hall; [reflexivity|].
  cbn [flat_map]. rewrite (Hall x) by (left; reflexivity).
  apply IH. intros y Hy. apply Hall. right. exact Hy.
Qed.

Lemma audit_nil_each c x :
  audit c = [] -> In x (blocks c) -> violations c x = [].
Proof.
  unfold audit. induction (blocks c) as [|y l IH]; intros Hnil Hx; [destruct Hx|].
  cbn [flat_map] in Hnil. apply app_eq_nil in Hnil as [Hy Hl].
  destruct Hx as [->|Hx]; auto.
Qed.

Lemma violations_nil c x :
  violations c x = [] <-> is_tampered x = false /\ is_broken_link c x = false.
Proof.
  unfold violations. destruct (is_tampered x), (is_broken_link c x); cbn;
    split; intros Hx; try discriminate; auto; destruct Hx; discriminate.
Qed.

(** The link test reads the chain through the stored hashes only. *)
Lemma is_broken_link_hashes c c' x :
  (forall k, option_map BlockClass.hash (chain_at c' k)
             = option_map BlockClass.hash (chain_at c k)) ->
  is_broken_link c' x = is_broken_link c x.
Proof.
  intros Hk. unfold is_broken_link. destruct (0 <? BlockClass.height x); auto.
  specialize (Hk (BlockClass.height x - 1)).
  destruct (chain_at c' (BlockClass.height x - 1)),
           (chain_at c (BlockClass.height x - 1)); cbn in Hk;
    try discriminate; auto.
  inversion Hk as [Heq]. rewrite Heq. reflexivity.
Qed.

Lemma chain_at_insert_hashes c (i : nat) b b' k :
  c !! i = Some (Some b) ->
  BlockClass.hash b' = BlockClass.hash b ->
  option_map BlockClass.hash (chain_at (<[i := Some b']> c) k)
  = option_map BlockClass.hash (chain_at c k).
Proof.
  intros Hi Hh. unfold chain_at. destruct (k <? 0); auto.
  destruct (decide (i = Z.to_nat k)) as [<-|Hne].
  - rewrite list_lookup_insert_eq by (apply lookup_lt_is_Some; eauto).
    rewrite Hi. cbn. congruence.
  - rewrite list_lookup_insert_ne by assumption. reflexivity.
Qed.

Lemma blocks_middle before e after :
  blocks (before ++ e :: after)
  = blocks before ++ match e with Some b => [b] | None => [] end ++ blocks after.
Proof. unfold blocks. rewrite omap_app. destruct e; reflexivity. Qed.

(** On a sound chain, a block that keeps the stored [hash], [height]
    and [previousBlockHash] of block [i] and fails the first test is
    the one block of the edited chain that fails a test. *)
Lemma audit_edited_block
    (c : list (option Block)) (i : nat) (b b' : Block) :
  sound c ->
  c !! i = Some (Some b) ->
  BlockClass.hash b' = BlockClass.hash b ->
  BlockClass.height b' = BlockClass.height b ->
  previousBlockHash b' = previousBlockHash b ->
  tampered b' ->
  audit (<[i := Some b']> c) = [TamperedBlock (Z.of_nat i)] /\
  map render (audit (<[i := Some b']> c)) = [notValidMessage (Z.of_nat i)].
Proof.
  intros Hs Hi Hh Hht Hp Ht.
  assert (Haudit : audit (<[i := Some b']> c) = [TamperedBlock (Z.of_nat i)]).
  { pose proof (sound_audit c Hs) as Hnil.
    assert (Hlt : (i < length c)%nat) by (apply lookup_lt_is_Some; eauto).
    assert (Hold : forall x, In (Some x) c ->
                             is_tampered x = false /\
                             is_broken_link (<[i := Some b']> c) x = false).
    { intros x Hx. apply In_blocks in Hx.
      apply (audit_nil_each c x Hnil), violations_nil in Hx as [Hx1 Hx2].
      split; auto. rewrite <- Hx2. apply is_broken_link_hashes.
      intros k. apply (chain_at_insert_hashes c i b b' k Hi Hh). }
    assert (Hbi : BlockClass.height b = Z.of_nat i).
    { destruct Hs as [(_ & Hidx & _) _]. destruct (Hidx i _ Hi) as (x & Hx & Hxh).
      inversion Hx; subst. exact Hxh. }
    assert (Hb : In (Some b) c) by (apply list_elem_of_In, list_elem_of_lookup; eauto).
    assert (Hnew : violations (<[i := Some b']> c) b' = [TamperedBlock (Z.of_nat i)]).
    { unfold violations. apply is_tampered_spec in Ht. rewrite Ht.
      destruct (Hold b Hb) as [_ Hlink].
      assert (Hl : is_broken_link (<[i := Some b']> c) b' = false).
      { rewrite <- Hlink. unfold is_broken_link. rewrite Hht, Hp. reflexivity. }
      rewrite Hl, Hht, Hbi. reflexivity. }
    pose proof (insert_take_drop c i (Some b') Hlt) as Hc'.
    pose proof (take_drop_middle c i (Some b) Hi) as Hc.
    remember (<[i := Some b']> c) as c' eqn:Ec'.
    unfold audit. replace (blocks c') with (blocks (take i c ++ Some b' :: drop (S i) c))
      by (rewrite Hc'; reflexivity).
    rewrite blocks_middle, !flat_map_app. cbn [flat_map].
    rewrite Hnew, app_nil_r.
    rewrite (flat_map_all_nil _ (blocks (take i c))), (flat_map_all_nil _ (blocks (drop (S i) c))).
    - reflexivity.
    - intros x Hx. apply violations_nil, Hold. apply In_blocks in Hx.
      rewrite <- Hc. apply in_or_app. right. right. exact Hx.
    - intros x Hx. apply violations_nil, Hold. apply In_blocks in Hx.
      rewrite <- Hc. apply in_or_app. left. exact Hx. }
  split; [exact Haudit|]. rewrite Haudit. reflexivity.
Qed.

(** What the array of [validateChain] holds once the callbacks have
    run. *)
Lemma validateChain_report s :
  microtasks s = [] ->
  errors_of (drain (snd (validateChain s))) (fst (validateChain s))
  = Some (map render (audit (chain s))) /\
  chain (drain (snd (validateChain s))) = chain s.
Proof.
  intros Hq. destruct (validateChain_drain s Hq) as [Hp Hd]. rewrite Hd.
  split; [|reflexivity].
  unfold errors_of, validateChain_final. cbn [promises arrays].
  rewrite Hp, lookup_last. apply lookup_last.
Qed.

(** X12.  On a chain that is linked and whose blocks all carry the hash
    of their fields, overwrite block [i] with a block that keeps the
    stored [hash], [height] and [previousBlockHash] but no longer hashes
    to the stored hash (its payload, time or owner has been edited).
    The array that [validateChain] resolves with then holds, once the
    callbacks have run, exactly one entry, 'Block i is not valid.': the
    block after it still links to the stored hash and is not reported.
    The edited chain is left as it is. *)
Theorem edited_block_is_the_only_entry
    (s : State) (i : nat) (b b' : Block) :
  microtasks s = [] ->
  sound (chain s) ->
  chain s !! i = Some (Some b) ->
  BlockClass.hash b' = BlockClass.hash b ->
  BlockClass.height b' = BlockClass.height b ->
  previousBlockHash b' = previousBlockHash b ->
  validate b' = false ->
  let s' := set_chain (<[i := Some b']> (chain s)) s in
  errors_of (drain (snd (validateChain s'))) (fst (validateChain s'))
  = Some ["Block " +:+ JS.toString (Z.of_nat i) +:+ " is not valid."] /\
  chain (drain (snd (validateChain s'))) = <[i := Some b']> (chain s).
Proof.
  intros Hq Hs Hi Hh Hht Hp Hv s'.
  assert (Ht : tampered b').
  { unfold validate in Hv. apply bool_decide_eq_false in Hv. exact Hv. }
  destruct (audit_edited_block (chain s) i b b' Hs Hi Hh Hht Hp Ht) as [_ Hr].
  destruct (validateChain_report s' Hq) as [Hrep Hsame].
  split; [|exact Hsame].
  rewrite Hrep. f_equal. exact Hr.
Qed.

End Sight.

(** ** Two appends in the same turn *)

Section Overlap.

Context `{Collaborators}.

Lemma addBlock_call block aw s :
  snd (_addBlock block aw s)
  = mkState (chain s) (height s) (clock s) (arrays s ++ [[]]) (cells s ++ [false])
      (promises s ++ [Fulfilled (VErrors (length (arrays s))); Pending]) (console s)
      (microtasks s ++ validate_jobs (length (arrays s)) (blocks (chain s))
         ++ [TErrors (length (cells s)) (length (arrays s));
             TSeal (length (cells s)) (prepare block (chain s) (clock s))
               (SHA256 (stringify (prepare block (chain s) (clock s))))
               (S (length (promises s))) aw]).
Proof.
  destruct s as [c h now arrs cls ps con q].
  unfold _addBlock, validateChain, new_promise, enqueue_all, then_errors, enqueue; simpl.
  rewrite lookup_last. simpl. rewrite callbacks_blocks, length_app, <- !app_assoc.
  simpl. rewrite Nat.add_1_r. reflexivity.
Qed.

Lemma step_cons c h now a cl ps con t q :
  step (mkState c h now a cl ps con (t :: q))
  = run_task t (mkState c h now a cl ps con q).
Proof. reflexivity. Qed.

Lemma errors_clean c h now a cl ps con q k e :
  a !! e = Some [] -> cl !! k = Some false ->
  set_chainErrorFound k e (mkState c h now a cl ps con q)
  = mkState c h now a cl ps con q.
Proof.
  intros Ha Hk. unfold set_chainErrorFound, set_cells.
  cbn [chain height clock arrays cells promises console microtasks].
  rewrite Ha. cbn. rewrite list_insert_id by exact Hk. reflexivity.
Qed.

Lemma lookup_second {A} (l : list A) x y r n :
  n = (length l + 1)%nat -> (l ++ x :: y :: r) !! n = Some y.
Proof.
  intros ->. rewrite lookup_app_r by lia.
  replace (length l + 1 - length l)%nat with 1%nat by lia. reflexivity.
Qed.

Lemma catch_error_if k (ok : bool) b e p aw s :
  catch_error k (if ok then inl b else inr e) p aw s
  = enqueue (TThen k (if ok then Some b else None) p aw)
      (set_console (if ok then console s else console s ++ ["Error " +:+ e]) s).
Proof. destruct ok, s; reflexivity. Qed.

Lemma then_push_clean c h now a cl ps con q k blk p :
  cl !! k = Some false ->
  then_push k blk p NoAwaiter (mkState c h now a cl ps con q)
  = settle p (Fulfilled (value_of blk))
      (mkState (c ++ [blk]) (Z.of_nat (length (c ++ [blk])) - 1) now a cl ps con q).
Proof.
  intros Hk. unfold then_push.
  cbn [chain height clock arrays cells promises console microtasks].
  rewrite Hk. reflexivity.
Qed.

Lemma settle_pending c h now a cl ps con q p o :
  ps !! p = Some Pending ->
  settle p o (mkState c h now a cl ps con q)
  = mkState c h now a cl (<[p := o]> ps) con q.
Proof.
  intros Hp. unfold settle. cbn [promises]. rewrite Hp. reflexivity.
Qed.

Lemma overlapping_drain b1 b2 now2 s :
  microtasks s = [] ->
  audit (chain s) = [] ->
  let s1 := snd (_addBlock b1 NoAwaiter s) in
  let s' := drain (snd (_addBlock b2 NoAwaiter (set_clock now2 s1))) in
  chain s' = chain s ++ [pushed b1 s; pushed b2 (set_clock now2 s)] /\
  height s' = Z.of_nat (length (chain s)) + 1.
Proof.
  intros Hq Haudit s1 s'. subst s' s1. rewrite !addBlock_call.
  destruct s as [c h now arrs cls ps con q]; cbn in Hq; subst q.
  cbn [chain] in Haudit. unfold audit in Haudit.
  cbn [chain height clock arrays cells promises console microtasks set_clock app].
  rewrite !length_app. cbn [length]. rewrite <- !app_assoc. cbn [app].
  rewrite <- (drain_run (length (blocks c))).
  erewrite run_validate_jobs by reflexivity.
  cbn [chain arrays]. rewrite Haudit. cbn [map]. rewrite alter_push_nil.
  unfold set_microtasks, set_arrays; cbn [chain height clock arrays cells promises console microtasks].
  rewrite <- drain_step, step_cons. cbn [run_task].
  rewrite errors_clean; [| apply list_lookup_middle; reflexivity ..].
  rewrite <- drain_step, step_cons. cbn [run_task].
  unfold seal, enqueue, set_microtasks;
    cbn [chain height clock arrays cells promises console microtasks].
  rewrite <- app_assoc. cbn [app].
  rewrite <- (drain_run (length (blocks c))).
  erewrite run_validate_jobs by reflexivity.
  cbn [chain arrays]. rewrite Haudit. cbn [map]. rewrite alter_push_nil.
  unfold set_microtasks, set_arrays; cbn [chain height clock arrays cells promises console microtasks].
  rewrite <- drain_step, step_cons. cbn [run_task].
  rewrite errors_clean; [| apply lookup_second; reflexivity ..].
  rewrite <- drain_step, step_cons. cbn [run_task].
  unfold seal, enqueue, set_microtasks;
    cbn [chain height clock arrays cells promises console microtasks app].
  fold (sealed b1 c now) (sealed b2 c now2).
  do 2 (rewrite <- drain_step, step_cons; cbn [run_task];
        rewrite catch_error_if; unfold enqueue, set_console, set_microtasks;
        cbn [chain height clock arrays cells promises console microtasks app]).
  rewrite <- drain_step, step_cons. cbn [run_task].
  rewrite then_push_clean by (apply list_lookup_middle; reflexivity).
  rewrite settle_pending by (apply lookup_second; lia).
  rewrite <- drain_step, step_cons. cbn [run_task].
  rewrite then_push_clean by (apply lookup_second; reflexivity).
  rewrite drain_idle by (rewrite !microtasks_settle; reflexivity).
  rewrite !chain_settle, !height_settle.
  cbn [chain height]. unfold pushed. cbn [chain clock set_clock].
  rewrite <- !app_assoc. cbn [app]. split; [reflexivity|].
  rewrite length_app. cbn [length]. lia.
Qed.


End Overlap.

Section Overlap_sound.

Context `{Collaborators}.

Hypothesis digest_length : forall x, String.length (SHA256 x) = 64%nat.

Lemma chain_at_app_l c more k :
  k < Z.of_nat (length c) -> chain_at (c ++ more) k = chain_at c k.
Proof.
  intros Hk. unfold chain_at. destruct (k <? 0) eqn:E; [reflexivity|].
  apply Z.ltb_ge in E. rewrite lookup_app_l by lia. reflexivity.
Qed.

Lemma is_broken_link_app c more x :
  BlockClass.height x <= Z.of_nat (length c) ->
  is_broken_link (c ++ more) x = is_broken_link c x.
Proof.
  intros Hx. unfold is_broken_link. destruct (0 <? BlockClass.height x); auto.
  rewrite chain_at_app_l by lia. reflexivity.
Qed.

Lemma sealed_links block c now : is_broken_link c (sealed block c now) = false.
Proof.
  unfold is_broken_link.
  change (BlockClass.height (sealed block c now)) with (Z.of_nat (length c)).
  change (previousBlockHash (sealed block c now))
    with (match chain_at c (Z.of_nat (length c) - 1) with
          | Some previous => BlockClass.hash previous
          | None => None
          end).
  destruct (0 <? Z.of_nat (length c)); [|reflexivity].
  destruct (chain_at c (Z.of_nat (length c) - 1)); [|reflexivity].
  rewrite bool_decide_eq_true_2 by reflexivity. reflexivity.
Qed.

Lemma sealed_validates block c now :
  BlockClass.hash block = None -> validate (sealed block c now) = true.
Proof.
  intros Hh. apply bool_decide_eq_true. destruct block. cbn in Hh. subst.
  reflexivity.
Qed.

Lemma violations_sealed block c more now :
  BlockClass.hash block = None ->
  violations (c ++ more) (sealed block c now) = [].
Proof.
  intros Hh. apply violations_nil. split.
  - pose proof (sealed_validates block c now Hh) as Hv.
    unfold validate in Hv. unfold is_tampered. rewrite Hv. reflexivity.
  - rewrite is_broken_link_app; [apply sealed_links|].
    change (BlockClass.height (sealed block c now)) with (Z.of_nat (length c)). lia.
Qed.

(** X13.  Two calls of [_addBlock] in the same turn, on a sound chain
    of [n] blocks, with candidates that carry no hash yet.  Both read
    the length [n] before either has pushed: both blocks pass the check
    of line 86 and both are pushed, with the same height [n] and the
    same [previousBlockHash].  The chain is no longer linked (the block
    at index [n + 1] has height [n]), [this.height] is [n + 1], and
    [validateChain] reports nothing on the result. *)
Theorem overlapping_appends_share_a_height (b1 b2 : Block) (now2 : Z) (s : State) :
  microtasks s = [] ->
  sound (chain s) ->
  1000 <= clock s -> 1000 <= now2 ->
  BlockClass.hash b1 = None -> BlockClass.hash b2 = None ->
  let s1 := snd (_addBlock b1 NoAwaiter s) in
  let s' := drain (snd (_addBlock b2 NoAwaiter (set_clock now2 s1))) in
  let n := Z.of_nat (length (chain s)) in
  exists x1 x2,
    chain s' = chain s ++ [Some x1; Some x2] /\
    BlockClass.height x1 = n /\ BlockClass.height x2 = n /\
    previousBlockHash x2 = previousBlockHash x1 /\
    body x1 = body b1 /\ body x2 = body b2 /\
    validate x1 = true /\ validate x2 = true /\
    height s' = n + 1 /\
    ~ well_linked (chain s') /\
    audit (chain s') = [].
Proof.
  intros Hq Hs Hnow Hnow2 Hh1 Hh2 s1 s' n.
  destruct (overlapping_drain b1 b2 now2 s Hq (sound_audit (chain s) Hs)) as [Hc Hh].
  fold s1 in Hc, Hh. fold s' in Hc, Hh. fold n in Hh.
  unfold pushed in Hc. cbn [chain clock set_clock] in Hc.
  rewrite !(isBlockValid_sealed digest_length) in Hc by assumption.
  exists (sealed b1 (chain s) (clock s)), (sealed b2 (chain s) now2).
  split; [exact Hc|]. split; [reflexivity|]. split; [reflexivity|].
  split; [reflexivity|]. split; [destruct b1; reflexivity|].
  split; [destruct b2; reflexivity|].
  split; [apply sealed_validates, Hh1|]. split; [apply sealed_validates, Hh2|].
  split; [exact Hh|]. split.
  - intros (_ & Hidx & _).
    destruct (Hidx (S (length (chain s))) (Some (sealed b2 (chain s) now2)))
      as (b & Hb & Hbh).
    + rewrite Hc. apply lookup_second. lia.
    + inversion Hb; subst b.
      change (BlockClass.height (sealed b2 (chain s) now2))
        with (Z.of_nat (length (chain s))) in Hbh. lia.
  - rewrite Hc. unfold audit.
    change (chain s ++ [Some (sealed b1 (chain s) (clock s)); Some (sealed b2 (chain s) now2)])
      with (chain s ++ Some (sealed b1 (chain s) (clock s)) :: [Some (sealed b2 (chain s) now2)]).
    rewrite blocks_middle, !flat_map_app.
    change (blocks [Some (sealed b2 (chain s) now2)]) with [sealed b2 (chain s) now2].
    cbn [flat_map].
    rewrite !violations_sealed by assumption. cbn [app]. rewrite !app_nil_r.
    apply flat_map_all_nil. intros x Hx.
    pose proof (audit_nil_each (chain s) x (sound_audit (chain s) Hs) Hx) as Hold.
    apply violations_nil in Hold as [Ht Hl]. apply violations_nil. split; [exact Ht|].
    rewrite is_broken_link_app; [exact Hl|].
    apply In_blocks, list_elem_of_In, list_elem_of_lookup in Hx as [i Hi].
    destruct Hs as [(_ & Hidx & _) _]. destruct (Hidx i _ Hi) as (b & Hb & Hbh).
    inversion Hb; subst b. apply lookup_lt_Some in Hi. lia.
Qed.

End Overlap_sound.

(** ** The registry, end to end *)

Section Registry.

Context `{Collaborators}.

Hypothesis digest_length : forall x, String.length (SHA256 x) = 64%nat.

(** [getStarsByWalletAddress] on a chain of blocks, run to completion. *)
Lemma getStars_drain address (bs : list Block) s :
  microtasks s = [] ->
  chain s = map Some bs ->
  promises (drain (snd (getStarsByWalletAddress address s)))
    !! fst (getStarsByWalletAddress address s)
  = Some (Fulfilled (VStars (map (fun b => mkStar (body b) (Some address))
                               (filter (fun b => owner b = Some address) bs)))) /\
  chain (drain (snd (getStarsByWalletAddress address s))) = chain s.
Proof.
  intros Hq Hc.
  unfold getStarsByWalletAddress, new_promise.
  cbn [fst snd chain set_promises]. rewrite Hc, mapM_map_Some. cbn [fst snd].
  rewrite <- drain_step. unfold step, enqueue.
  cbn [microtasks set_microtasks set_promises]. rewrite Hq.
  cbn [app run_task]. unfold resolve_stars, settle.
  cbn [promises set_microtasks set_promises]. rewrite lookup_last.
  rewrite drain_idle by reflexivity.
  cbn [promises chain set_promises set_microtasks]. rewrite insert_last.
  split; [|first [exact Hc | symmetry; exact Hc | reflexivity]].
  rewrite lookup_last. rewrite map_map. reflexivity.
Qed.

Lemma submitted_quiet s l s' :
  submitted s l s' -> microtasks s = [] -> microtasks s' = [].
Proof.
  induction 1 as [s | s x l s1 s' Hs1 Hsub IH]; intros Hq; [exact Hq|].
  apply IH. rewrite Hs1. apply drain_quiet.
Qed.

(** Filtering the blocks by owner is filtering the submissions by
    address, when the two lists go side by side. *)
Lemma stars_by_columns address : forall (bs : list Block) (l : list Submission),
  map body bs = map (fun x => StarData (sub_star x)) l ->
  map owner bs = map (fun x => Some (sub_address x)) l ->
  map (fun b => mkStar (body b) (Some address))
    (filter (fun b => owner b = Some address) bs)
  = map (fun x => mkStar (StarData (sub_star x)) (Some address))
      (filter (fun x => sub_address x = address) l).
Proof.
  induction bs as [|b bs IH]; intros [|x l] Hb Ho; try discriminate; [reflexivity|].
  cbn [map] in Hb, Ho. inversion Hb as [[Hb1 Hb2]]. inversion Ho as [[Ho1 Ho2]].
  rewrite !filter_cons. rewrite Ho1.
  destruct (decide (Some (sub_address x) = Some address)) as [Heq|Hne];
    destruct (decide (sub_address x = address)) as [Heq'|Hne'];
    try congruence.
  - cbn [map]. rewrite Hb1, (IH l Hb2 Ho2). reflexivity.
  - apply (IH l Hb2 Ho2).
Qed.

(** X14.  The registry end to end.  After the constructor and any
    submissions made one after the other, [getStarsByWalletAddress]
    with signatures that the verifier accepts, [getStarsByWalletAddress]
    resolves with the stars submitted under the address, in the order
    of submission and each with [owner] set to the address - all of
    them, those whose submission was rejected for its time included -
    and with nothing else; the chain is left as it is. *)
Theorem registry_returns_submitted_stars
    (now : Z) (l : list Submission) (s' : State) (address : string) :
  1000 <= now ->
  Forall (fun x => 1000 <= sub_clock x) l ->
  Forall (fun x => verify (sub_message x) (sub_address x) (sub_signature x) = true) l ->
  submitted (drain (new_Blockchain now)) l s' ->
  let p := fst (getStarsByWalletAddress address s') in
  let s'' := drain (snd (getStarsByWalletAddress address s')) in
  promises s'' !! p
  = Some (Fulfilled (VStars
            (map (fun x => mkStar (StarData (sub_star x)) (Some address))
               (filter (fun x => sub_address x = address) l)))) /\
  chain s'' = chain s'.
Proof.
  intros Hnow Hl _ Hsub p s''. subst p s''.
  destruct (created_sound digest_length now Hnow) as [_ Hs0].
  pose proof (created_chain digest_length now Hnow) as Hg.
  assert (Hhg : height (drain (new_Blockchain now))
                = Z.of_nat (length (chain (drain (new_Blockchain now)))) - 1).
  { apply run_keeps_height. unfold new_Blockchain.
    destruct (frame_initializeChain (quiet [] (-1) now)) as [-> ->]. reflexivity. }
  destruct (submitted_chain digest_length _ _ _ Hsub (drain_quiet _) Hs0 Hhg Hl)
    as (Hs' & _ & Hb & Ho).
  rewrite Hg in Hb, Ho. cbn in Hb, Ho.
  pose proof (submitted_quiet _ _ _ Hsub (drain_quiet _)) as Hq'.
  destruct Hs' as [Hw _]. destruct (well_linked_blocks _ Hw) as [Hc _].
  destruct (getStars_drain address (blocks (chain s')) s' Hq' Hc) as [Hres Hsame].
  split; [|exact Hsame]. rewrite Hres. do 3 f_equal.
  destruct (blocks (chain s')) as [|g bs]; [discriminate|].
  cbn [map] in Hb, Ho. inversion Hb as [[Hb1 Hb2]]. inversion Ho as [[Ho1 Ho2]].
  rewrite filter_cons. destruct (decide (owner g = Some address)) as [Hg'|_];
    [congruence|].
  apply stars_by_columns; assumption.
Qed.

End Registry.

(** A star under one address, then one under another address 400
    seconds after its challenge: the second address has its star. *)
Lemma registry_returns_submitted_stars_witness :
  let x1 := mkSubmission (Scenario.t0 + 100000) "abc" Scenario.message Scenario.signature "Sirius" in
  let x2 := mkSubmission (Scenario.t0 + 400000) "xyz" Scenario.message
              (Demo.sign Scenario.message "xyz") "Vega" in
  let s1 := drain (snd (submitStar (sub_address x1) (sub_message x1) (sub_signature x1)
                          (sub_star x1)
                          (set_clock (sub_clock x1) (drain (new_Blockchain Scenario.t0))))) in
  let s2 := drain (snd (submitStar (sub_address x2) (sub_message x2) (sub_signature x2)
                          (sub_star x2) (set_clock (sub_clock x2) s1))) in
  promises (drain (snd (getStarsByWalletAddress "xyz" s2)))
    !! fst (getStarsByWalletAddress "xyz" s2)
  = Some (Fulfilled (VStars [mkStar (StarData "Vega") (Some "xyz")])).
Proof.
  intros x1 x2 s1 s2.
  destruct (registry_returns_submitted_stars (H := Demo.collaborators)
              length_digest Scenario.t0 [x1; x2] s2 "xyz") as [Hres _].
  - unfold Scenario.t0. lia.
  - subst x1 x2. unfold Scenario.t0.
    constructor; [cbn [sub_clock]; lia|]. constructor; [cbn [sub_clock]; lia|].
    constructor.
  - constructor; [vm_compute; reflexivity|].
    constructor; [vm_compute; reflexivity | constructor].
  - exact (submitted_cons _ x1 [x2] s1 s2 eq_refl
             (submitted_cons _ x2 [] s2 s2 eq_refl (submitted_nil s2))).
  - exact Hres.
Defined.

(** The star of block 1 of the chain of two blocks, edited: one entry,
    for block 1. *)
Lemma edited_block_is_the_only_entry_witness :
  let x := mkSubmission (Scenario.t0 + 1000 * 100) "abc" Scenario.message
             Scenario.signature "Sirius" in
  let s0 := drain (snd (submitStar (sub_address x) (sub_message x) (sub_signature x)
                          (sub_star x)
                          (set_clock (sub_clock x) (drain (new_Blockchain Scenario.t0))))) in
  let g := sealed (BlockClass.new GenesisData) [] Scenario.t0 in
  let b := sealed (candidate (sub_address x) (sub_star x)) [Some g] (sub_clock x) in
  let b' := mkBlock (BlockClass.hash b) (BlockClass.height b) (StarData "Vega")
              (time b) (previousBlockHash b) (owner b) in
  let s' := set_chain (<[1%nat := Some b']> (chain s0)) s0 in
  errors_of (drain (snd (validateChain s'))) (fst (validateChain s'))
  = Some ["Block 1 is not valid."].
Proof.
  intros x s0 g b b' s'.
  assert (Hnow : 1000 <= Scenario.t0) by (unfold Scenario.t0; lia).
  destruct (created_sound (H := Demo.collaborators) length_digest Scenario.t0 Hnow)
    as [_ Hs0].
  pose proof (created_chain (H := Demo.collaborators) length_digest Scenario.t0 Hnow)
    as Hg.
  destruct (submission_appends (H := Demo.collaborators) length_digest x
              (drain (new_Blockchain Scenario.t0)) (drain_quiet _) Hs0)
    as [Hc Hs1]; [unfold x, Scenario.t0; cbn [sub_clock]; lia|].
  rewrite Hg in Hc.
  destruct (edited_block_is_the_only_entry (H := Demo.collaborators)
              s0 1 b b' (drain_quiet _) Hs1) as [Hrep _].
  - fold s0 in Hc. rewrite Hc. reflexivity.
  - reflexivity.
  - reflexivity.
  - reflexivity.
  - vm_compute. reflexivity.
  - refine (eq_trans Hrep _). vm_compute. reflexivity.
Defined.

(** Two candidates handed to [_addBlock] in the same turn on the chain
    of one block: [height] is 2, and the report is empty. *)
Lemma overlapping_appends_share_a_height_witness :
  let s1 := snd (_addBlock (candidate "abc" "Sirius") NoAwaiter Scenario.created) in
  let s' := drain (snd (_addBlock (candidate "xyz" "Vega") NoAwaiter
                          (set_clock (Scenario.t0 + 1) s1))) in
  height s' = 2 /\ audit (chain s') = [] /\ ~ well_linked (chain s').
Proof.
  intros s1 s'.
  destruct (overlapping_appends_share_a_height (H := Demo.collaborators) length_digest
              (candidate "abc" "Sirius") (candidate "xyz" "Vega")
              (Scenario.t0 + 1) Scenario.created)
    as (x1 & x2 & _ & _ & _ & _ & _ & _ & _ & _ & Hh & Hw & Ha).
  - apply drain_quiet.
  - apply (created_sound (H := Demo.collaborators) length_digest Scenario.t0).
    unfold Scenario.t0. lia.
  - vm_compute. discriminate.
  - unfold Scenario.t0. lia.
  - reflexivity.
  - reflexivity.
  - split; [|split; [exact Ha | exact Hw]].
    refine (eq_trans Hh _). vm_compute. reflexivity.
Defined.
